(** * Topology discovery of ng-monitoring: a shallow embedding

    The development follows [component/topology] of the repository: the
    three source adapters ([getTiDBComponents], [getPDComponents],
    [getStoreComponents]), the aggregator [getAllScrapeTargets], the
    refresh [loadTopology], the fan-out [notifySubscriber], the
    registration [Subscribe], the constructor [NewTopologyDiscoverer] and
    the control loop [loadTopologyLoop].

    Go values are modelled as the code has them: a slice is either nil or
    a (possibly empty) sequence, a function returning [(T, error)] returns
    a [result], buffered channels are bounded FIFO buffers living in a
    store and named by references. *)

From stdpp Require Import base option list strings.
From Stdlib Require Import NArith Lia.

Open Scope string_scope.
Open Scope list_scope.

(** ** Go runtime values *)

Module Go.

(** Go's [error] values: only the message matters here. *)
Inductive error : Type := Error (msg : string).

(** The outcome of a function of type [func(...) (T, error)]. *)
Inductive result (A : Type) : Type :=
| Ok (a : A)
| Err (e : error).
Arguments Ok {A} a.
Arguments Err {A} e.

Definition is_ok {A} (r : result A) : bool :=
  match r with Ok _ => true | Err _ => false end.

(** A slice: the nil slice and the empty non-nil slice are different
    values of length zero. Capacity is not observable in this package. *)
Inductive slice (A : Type) : Type :=
| Nil
| Mk (xs : list A).
Arguments Nil {A}.
Arguments Mk {A} xs.

Definition elems {A} (s : slice A) : list A :=
  match s with Nil => [] | Mk xs => xs end.

Definition len {A} (s : slice A) : nat := length (elems s).

Definition is_nil {A} (s : slice A) : bool :=
  match s with Nil => true | Mk _ => false end.

(** [make([]T, 0, n)]: non-nil, length zero. *)
Definition make0 {A} : slice A := Mk [].

(** [append(s, xs...)]: appending nothing to nil yields nil. *)
Definition append {A} (s : slice A) (xs : list A) : slice A :=
  match s, xs with
  | Nil, [] => Nil
  | _, _ => Mk (elems s ++ xs)
  end.

(** A buffered channel: pending values in FIFO order and the capacity
    given to [make(chan T, cap)]. *)
Record chan (A : Type) : Type := MkChan { buf : list A; cap : nat }.
Arguments MkChan {A} buf cap.
Arguments buf {A} c.
Arguments cap {A} c.

Definition make_chan {A} (n : nat) : chan A := MkChan [] n.

(** [select { case ch <- v: default: }]: the send is taken when the
    buffer has room, otherwise the default branch runs and the channel is
    left as it is. The boolean tells which branch ran. *)
Definition try_send {A} (c : chan A) (v : A) : chan A * bool :=
  if decide (length (buf c) < cap c)
  then (MkChan (buf c ++ [v]) (cap c), true)
  else (c, false).

(** A receive that is ready: the oldest pending value leaves the buffer. *)
Definition recv {A} (c : chan A) : option (A * chan A) :=
  match buf c with
  | [] => None
  | v :: rest => Some (v, MkChan rest (cap c))
  end.

End Go.

Import Go.

(** ** Instance records of [github.com/pingcap/tidb-dashboard/util/topo] *)

Module topo.

(** Modelled from the spec: [topo.ComponentStatus] is declared in the
    external tidb-dashboard package; the adapters only compare a status
    with [ComponentStatusUp]. *)
Inductive ComponentStatus : Type :=
| ComponentStatusUnreachable
| ComponentStatusUp
| ComponentStatusTombstone
| ComponentStatusOffline
| ComponentStatusDown.

#[global] Instance ComponentStatus_eq_dec : EqDecision ComponentStatus.
Proof. solve_decision. Defined.

Module TiDBInfo.
Record t : Type := Mk { IP : string; Port : N; StatusPort : N; Status : ComponentStatus }.
End TiDBInfo.

Module PDInfo.
Record t : Type := Mk { IP : string; Port : N; Status : ComponentStatus }.
End PDInfo.

Module StoreInfo.
Record t : Type := Mk { IP : string; Port : N; StatusPort : N; Status : ComponentStatus }.
End StoreInfo.

End topo.

(** What the two registries answer during one aggregation cycle: the
    outcome of [topo.GetTiDBInstances] (etcd), of [topo.GetPDInstances] and
    of [topo.GetStoreInstances] (PD HTTP API; TiKV stores first, TiFlash
    stores second). A deadline that expires shows up as an [Err]. *)
Record Registry : Type := {
  GetTiDBInstances : result (list topo.TiDBInfo.t);
  GetPDInstances : result (list topo.PDInfo.t);
  GetStoreInstances : result (list topo.StoreInfo.t * list topo.StoreInfo.t);
}.

(** ** Component records *)

Definition ComponentTiDB : string := "tidb".
Definition ComponentTiKV : string := "tikv".
Definition ComponentTiFlash : string := "tiflash".
Definition ComponentPD : string := "pd".

Record Component : Type := {
  Name : string;
  IP : string;
  Port : N;
  StatusPort : N;
}.

#[global] Instance Component_eq_dec : EqDecision Component.
Proof. solve_decision. Defined.

(** ** Source adapters *)

(** The [for _, instance := range instances] loop of [getTiDBComponents]. *)
Fixpoint rangeTiDB (instances : list topo.TiDBInfo.t) (components : slice Component)
  : slice Component :=
  match instances with
  | [] => components
  | instance :: rest =>
      if decide (topo.TiDBInfo.Status instance <> topo.ComponentStatusUp)
      then rangeTiDB rest components
      else rangeTiDB rest
             (append components
                [ {| Name := ComponentTiDB;
                     IP := topo.TiDBInfo.IP instance;
                     Port := topo.TiDBInfo.Port instance;
                     StatusPort := topo.TiDBInfo.StatusPort instance |} ])
  end.

Definition getTiDBComponents (reg : Registry) : result (slice Component) :=
  match GetTiDBInstances reg with
  | Err err => Err err
  | Ok instances => Ok (rangeTiDB instances make0)
  end.

(** The loop of [getPDComponents]: the status port is the service port. *)
Fixpoint rangePD (instances : list topo.PDInfo.t) (components : slice Component)
  : slice Component :=
  match instances with
  | [] => components
  | instance :: rest =>
      if decide (topo.PDInfo.Status instance <> topo.ComponentStatusUp)
      then rangePD rest components
      else rangePD rest
             (append components
                [ {| Name := ComponentPD;
                     IP := topo.PDInfo.IP instance;
                     Port := topo.PDInfo.Port instance;
                     StatusPort := topo.PDInfo.Port instance |} ])
  end.

Definition getPDComponents (reg : Registry) : result (slice Component) :=
  match GetPDInstances reg with
  | Err err => Err err
  | Ok instances => Ok (rangePD instances make0)
  end.

(** The closure [getComponents] of [getStoreComponents]; the captured
    variable [components] is threaded through. *)
Fixpoint getComponents (instances : list topo.StoreInfo.t) (name : string)
    (components : slice Component) : slice Component :=
  match instances with
  | [] => components
  | instance :: rest =>
      if decide (topo.StoreInfo.Status instance <> topo.ComponentStatusUp)
      then getComponents rest name components
      else getComponents rest name
             (append components
                [ {| Name := name;
                     IP := topo.StoreInfo.IP instance;
                     Port := topo.StoreInfo.Port instance;
                     StatusPort := topo.StoreInfo.StatusPort instance |} ])
  end.

Definition getStoreComponents (reg : Registry) : result (slice Component) :=
  match GetStoreInstances reg with
  | Err err => Err err
  | Ok (tikvInstances, tiflashInstances) =>
      let components := make0 in
      let components := getComponents tikvInstances ComponentTiKV components in
      let components := getComponents tiflashInstances ComponentTiFlash components in
      Ok components
  end.

(** ** Snapshot aggregator *)

(** The [for _, fn := range fns] loop of [getAllScrapeTargets]. *)
Fixpoint rangeFns (fns : list (Registry -> result (slice Component))) (reg : Registry)
    (components : slice Component) : result (slice Component) :=
  match fns with
  | [] => Ok components
  | fn :: rest =>
      match fn reg with
      | Err err => Err err
      | Ok nodes => rangeFns rest reg (append components (elems nodes))
      end
  end.

Definition getAllScrapeTargets (reg : Registry) : result (slice Component) :=
  let fns := [getTiDBComponents; getPDComponents; getStoreComponents] in
  rangeFns fns reg make0.

(** ** The discoverer and the store it lives in *)

(** A channel value is a reference into the store of mailboxes. *)
Abbreviation ref := nat.

Module tls.
(** Modelled from the spec: the TLS client configuration is built by the
    [config] package from certificate, key and CA material; the discoverer
    only passes it on to both registry clients. *)
Record Config : Type := { CA : string; Cert : string; Key : string }.
End tls.

Module httpclient.
Record APIClientConfig : Type := { Endpoint : string; TLS : option tls.Config }.
End httpclient.

Module pdclient.
Record EtcdClientConfig : Type := { Endpoints : list string; TLS : option tls.Config }.
(** Client handles are opaque to this package; a handle remembers the
    configuration it was built from. *)
Inductive APIClient : Type := APIClientOf (c : httpclient.APIClientConfig).
Inductive EtcdClient : Type := EtcdClientOf (c : EtcdClientConfig).
End pdclient.

Module config.
(** Modelled from the spec: the [config] package is not part of the shown
    sources; the constructor reads the cluster-manager endpoint list and
    the transport-security section. *)
Record Security : Type := { SSLCA : string; SSLCert : string; SSLKey : string }.
Record Config : Type := { PD_Endpoints : list string; Security_ : Security }.
End config.

Record TopologyDiscoverer : Type := {
  mutex : bool;                        (* sync.Mutex: [true] while held *)
  pdCli : pdclient.APIClient;
  etcdCli : pdclient.EtcdClient;
  subscriber : slice ref;
  components : slice Component;
  notifyCh : chan unit;
  closed : bool;                       (* [true] once [close(d.closed)] ran *)
}.

Inductive LogEntry : Type :=
| InfoFirstLoadTopology (component : slice Component) (err : option error)
| ErrorLoadTopologyFailed (err : error)
| DebugLoadTopologySuccess (component : slice Component).

(** Where the goroutine started by [Start] stands. *)
Inductive loop_pc : Type := NotStarted | Selecting | Returned.

Record World : Type := {
  d : TopologyDiscoverer;
  mailboxes : list (chan (slice Component));
  logs : list LogEntry;
  loop : loop_pc;
}.

Definition with_d (f : TopologyDiscoverer -> TopologyDiscoverer) (w : World) : World :=
  {| d := f (d w); mailboxes := mailboxes w; logs := logs w; loop := loop w |}.

Definition with_mailboxes (f : list (chan (slice Component)) -> list (chan (slice Component)))
    (w : World) : World :=
  {| d := d w; mailboxes := f (mailboxes w); logs := logs w; loop := loop w |}.

Definition with_loop (pc : loop_pc) (w : World) : World :=
  {| d := d w; mailboxes := mailboxes w; logs := logs w; loop := pc |}.

Definition log (e : LogEntry) (w : World) : World :=
  {| d := d w; mailboxes := mailboxes w; logs := logs w ++ [e]; loop := loop w |}.

Definition set_mutex (b : bool) (t : TopologyDiscoverer) : TopologyDiscoverer :=
  {| mutex := b; pdCli := pdCli t; etcdCli := etcdCli t; subscriber := subscriber t;
     components := components t; notifyCh := notifyCh t; closed := closed t |}.

Definition set_subscriber (s : slice ref) (t : TopologyDiscoverer) : TopologyDiscoverer :=
  {| mutex := mutex t; pdCli := pdCli t; etcdCli := etcdCli t; subscriber := s;
     components := components t; notifyCh := notifyCh t; closed := closed t |}.

Definition set_components (s : slice Component) (t : TopologyDiscoverer) : TopologyDiscoverer :=
  {| mutex := mutex t; pdCli := pdCli t; etcdCli := etcdCli t; subscriber := subscriber t;
     components := s; notifyCh := notifyCh t; closed := closed t |}.

Definition set_notifyCh (c : chan unit) (t : TopologyDiscoverer) : TopologyDiscoverer :=
  {| mutex := mutex t; pdCli := pdCli t; etcdCli := etcdCli t; subscriber := subscriber t;
     components := components t; notifyCh := c; closed := closed t |}.

Definition set_closed (b : bool) (t : TopologyDiscoverer) : TopologyDiscoverer :=
  {| mutex := mutex t; pdCli := pdCli t; etcdCli := etcdCli t; subscriber := subscriber t;
     components := components t; notifyCh := notifyCh t; closed := b |}.

(** ** Construction *)

(** The constructor calls two fallible client constructors of external
    packages. A computation of type [Ctor A] threads the list of client
    constructions attempted so far and may stop with an error. *)
Inductive ctor_call : Type :=
| CallNewAPIClient (c : httpclient.APIClientConfig)
| CallNewEtcdClient (c : pdclient.EtcdClientConfig).

Definition Ctor (A : Type) : Type := list ctor_call -> list ctor_call * result A.

Definition ctor_ret {A} (a : A) : Ctor A := fun calls => (calls, Ok a).

Definition ctor_fail {A} (e : error) : Ctor A := fun calls => (calls, Err e).

Definition ctor_bind {A B} (m : Ctor A) (k : A -> Ctor B) : Ctor B :=
  fun calls =>
    match m calls with
    | (calls', Ok a) => k a calls'
    | (calls', Err e) => (calls', Err e)
    end.

Notation "'call' x ':=' m 'in' k" := (ctor_bind m (fun x => k))
  (at level 10, x name, m at level 100, k at level 200).

(** The struct literal at the end of [NewTopologyDiscoverer]: the fields
    not listed there have Go's zero values. *)
Definition newDiscoverer (pdCli : pdclient.APIClient) (etcdCli : pdclient.EtcdClient)
  : TopologyDiscoverer :=
  {| mutex := false;
     pdCli := pdCli;
     etcdCli := etcdCli;
     subscriber := Nil;
     components := Nil;
     notifyCh := make_chan 1;
     closed := false |}.

Section Construction.

(** Methods of the [config] package and constructors of the client
    packages, none of them among the shown sources. *)
Variable GetHTTPScheme : config.Config -> string.
Variable GetTLSConfig : config.Security -> option tls.Config.
Variable NewAPIClient : httpclient.APIClientConfig -> result pdclient.APIClient.
Variable NewEtcdClient : pdclient.EtcdClientConfig -> result pdclient.EtcdClient.

Definition callNewAPIClient (c : httpclient.APIClientConfig) : Ctor pdclient.APIClient :=
  fun calls => (calls ++ [CallNewAPIClient c], NewAPIClient c).

Definition callNewEtcdClient (c : pdclient.EtcdClientConfig) : Ctor pdclient.EtcdClient :=
  fun calls => (calls ++ [CallNewEtcdClient c], NewEtcdClient c).

Definition NewTopologyDiscoverer (cfg : config.Config) : Ctor TopologyDiscoverer :=
  match config.PD_Endpoints cfg with
  | [] =>
      ctor_fail (Error "unexpected empty pd endpoints, please specify at least one pd endpoint")
  | endpoint0 :: _ =>
      call pdCli := callNewAPIClient
                       {| httpclient.Endpoint := GetHTTPScheme cfg +:+ "://" +:+ endpoint0;
                          httpclient.TLS := GetTLSConfig (config.Security_ cfg) |} in
      call etcdCli := callNewEtcdClient
                         {| pdclient.Endpoints := config.PD_Endpoints cfg;
                            pdclient.TLS := GetTLSConfig (config.Security_ cfg) |} in
      ctor_ret (newDiscoverer pdCli etcdCli)
  end.

End Construction.

(** The world right after construction: no mailbox, nothing logged, the
    loop not started. *)
Definition init (t : TopologyDiscoverer) : World :=
  {| d := t; mailboxes := []; logs := []; loop := NotStarted |}.

(** ** Operations of the discoverer *)

(** [d.Lock()]: proceeds only when the mutex is free. *)
Definition Lock (w : World) : option World :=
  if mutex (d w) then None else Some (with_d (set_mutex true) w).

Definition Unlock (w : World) : World := with_d (set_mutex false) w.

(** [ch := make(chan []Component, 1)]: a fresh mailbox of capacity one. *)
Definition makeMailbox (w : World) : World * ref :=
  (with_mailboxes (fun m => m ++ [make_chan 1]) w, length (mailboxes w)).

(** [d.subscriber = append(d.subscriber, ch)]. *)
Definition appendSubscriber (ch : ref) (w : World) : World :=
  with_d (fun t => set_subscriber (append (subscriber t) [ch]) t) w.

(** [select { case d.notifyCh <- struct{}{}: default: }]. *)
Definition signal (w : World) : World :=
  with_d (fun t => set_notifyCh (fst (try_send (notifyCh t) tt)) t) w.

Definition Subscribe (w : World) : option (World * ref) :=
  let (w, ch) := makeMailbox w in
  w ← Lock w;
  let w := appendSubscriber ch w in
  let w := Unlock w in
  let w := signal w in
  Some (w, ch).

(** [close(d.closed)] panics when the channel is closed already; the
    result of closing the etcd connection is of no concern here. *)
Definition Close (w : World) : option World :=
  if closed (d w) then None else Some (with_d (set_closed true) w).

Definition loadTopology (reg : Registry) (w : World) : World * option error :=
  match getAllScrapeTargets reg with
  | Err err => (w, Some err)
  | Ok components => (with_d (set_components components) w, None)
  end.

(** One iteration of the loop of [notifySubscriber]:
    [select { case ch <- d.components: default: }]. A reference without a
    mailbox behaves like a nil channel: the default branch runs. *)
Definition sendTo (ch : ref) (w : World) : World :=
  with_mailboxes (alter (fun c => fst (try_send c (components (d w)))) ch) w.

Fixpoint rangeSubscriber (chs : list ref) (w : World) : World :=
  match chs with
  | [] => w
  | ch :: rest => rangeSubscriber rest (sendTo ch w)
  end.

Definition notifySubscriber (w : World) : World :=
  rangeSubscriber (elems (subscriber (d w))) w.

(** ** The control loop *)

(** [loadTopologyLoop] up to its first [select]. *)
Definition loopPrologue (reg : Registry) (w : World) : World :=
  let (w, err) := loadTopology reg w in
  log (InfoFirstLoadTopology (components (d w)) err) w.

(** The case of the [select] that is taken in one iteration. *)
Inductive select_case : Type := CaseClosed | CaseTick | CaseNotify.

(** One iteration of the [for { select { ... } }]; [reg] is what the
    registries would answer during it. [None]: the case is not ready. *)
Definition loopIteration (c : select_case) (reg : Registry) (w : World) : option World :=
  match c with
  | CaseClosed =>
      if closed (d w) then Some (with_loop Returned w) else None
  | CaseTick =>
      let (w, err) := loadTopology reg w in
      let w := match err with
               | Some err => log (ErrorLoadTopologyFailed err) w
               | None => log (DebugLoadTopologySuccess (components (d w))) w
               end in
      Some (notifySubscriber w)
  | CaseNotify =>
      match recv (notifyCh (d w)) with
      | None => None
      | Some (_, c) => Some (notifySubscriber (with_d (set_notifyCh c) w))
      end
  end.

(** ** The system: the loop goroutine and its environment *)

Inductive action : Type :=
| ActSubscribe                               (* a caller runs [Subscribe] *)
| ActReceive (ch : ref)                      (* a consumer reads its mailbox *)
| ActClose                                   (* a caller runs [Close] *)
| ActStart (reg : Registry)                  (* [Start]; the loop reaches its select *)
| ActSelect (c : select_case) (reg : Registry).

Definition receive (ch : ref) (w : World) : option World :=
  c ← mailboxes w !! ch;
  r ← recv c;
  Some (with_mailboxes (<[ch := snd r]>) w).

Definition act (a : action) (w : World) : option World :=
  match a with
  | ActSubscribe => fst <$> Subscribe w
  | ActReceive ch => receive ch w
  | ActClose => Close w
  | ActStart reg =>
      match loop w with
      | NotStarted => Some (with_loop Selecting (loopPrologue reg w))
      | _ => None
      end
  | ActSelect c reg =>
      match loop w with
      | Selecting => loopIteration c reg w
      | _ => None
      end
  end.

Fixpoint run (acts : list action) (w : World) : option World :=
  match acts with
  | [] => Some w
  | a :: rest => w' ← act a w; run rest w'
  end.

(** The worlds the system can be in, from a freshly built discoverer. *)
Inductive reachable : World -> Prop :=
| reachable_init pdCli etcdCli : reachable (init (newDiscoverer pdCli etcdCli))
| reachable_act a w w' : reachable w -> act a w = Some w' -> reachable w'.

(** ** Goroutines step by step

    [Subscribe] is called from other goroutines than the one running the
    loop. Here each call is cut at its synchronisation and shared-memory
    operations, and a scheduler interleaves the callers with the loop
    goroutine while the latter executes [notifySubscriber]. *)

Module Interleaving.

(** Program points of one call of [Subscribe]. *)
Inductive subscribe_pc : Type :=
| AtMake                    (* ch := make(chan []Component, 1) *)
| AtLock (ch : ref)         (* d.Lock() *)
| AtAppend (ch : ref)       (* d.subscriber = append(d.subscriber, ch) *)
| AtUnlock (ch : ref)       (* d.Unlock() *)
| AtSignal (ch : ref)       (* select { case d.notifyCh <- struct{}{}: default: } *)
| AtReturn (ch : ref).      (* return ch *)

(** Program points of one call of [notifySubscriber]: the range
    expression [d.subscriber] is evaluated once, then one send is tried
    per element. *)
Inductive notify_pc : Type :=
| AtRange
| AtSend (chs : list ref)
| AtDone.

Definition stepSubscribe (pc : subscribe_pc) (w : World) : option (subscribe_pc * World) :=
  match pc with
  | AtMake => let (w, ch) := makeMailbox w in Some (AtLock ch, w)
  | AtLock ch => w ← Lock w; Some (AtAppend ch, w)
  | AtAppend ch => Some (AtUnlock ch, appendSubscriber ch w)
  | AtUnlock ch => Some (AtSignal ch, Unlock w)
  | AtSignal ch => Some (AtReturn ch, signal w)
  | AtReturn _ => None
  end.

Definition stepNotify (pc : notify_pc) (w : World) : option (notify_pc * World) :=
  match pc with
  | AtRange => Some (AtSend (elems (subscriber (d w))), w)
  | AtSend [] => Some (AtDone, w)
  | AtSend (ch :: rest) => Some (AtSend rest, sendTo ch w)
  | AtDone => None
  end.

Record Config : Type := {
  world : World;
  notifier : notify_pc;
  callers : list subscribe_pc;
}.

Inductive goroutine : Type := LoopGoroutine | Caller (i : nat).

#[global] Instance goroutine_eq_dec : EqDecision goroutine.
Proof. solve_decision. Defined.

(** One step of goroutine [g]; [None] when it is blocked or has returned. *)
Definition step (g : goroutine) (c : Config) : option Config :=
  match g with
  | LoopGoroutine =>
      r ← stepNotify (notifier c) (world c);
      Some {| world := snd r; notifier := fst r; callers := callers c |}
  | Caller i =>
      pc ← callers c !! i;
      r ← stepSubscribe pc (world c);
      Some {| world := snd r; notifier := notifier c; callers := <[i := fst r]> (callers c) |}
  end.

Fixpoint schedule (gs : list goroutine) (c : Config) : option Config :=
  match gs with
  | [] => Some c
  | g :: rest => c' ← step g c; schedule rest c'
  end.

(** Run a goroutine alone for at most [n] steps. *)
Fixpoint alone (g : goroutine) (n : nat) (c : Config) : Config :=
  match n with
  | O => c
  | S n => match step g c with Some c' => alone g n c' | None => c end
  end.

(** Does goroutine [g] hold the mutex? The loop goroutine never locks. *)
Definition holds_mutex (g : goroutine) (c : Config) : bool :=
  match g with
  | LoopGoroutine => false
  | Caller i =>
      match callers c !! i with
      | Some (AtAppend _) | Some (AtUnlock _) => true
      | _ => false
      end
  end.

(** Is the next step of [g] an access to the field [d.subscriber]? *)
Definition reads_subscriber (g : goroutine) (c : Config) : bool :=
  match g with
  | LoopGoroutine => match notifier c with AtRange => true | _ => false end
  | Caller _ => false
  end.

Definition writes_subscriber (g : goroutine) (c : Config) : bool :=
  match g with
  | LoopGoroutine => false
  | Caller i => match callers c !! i with Some (AtAppend _) => true | _ => false end
  end.

(** Two goroutines are both ready to access [d.subscriber], one of them
    writing: nothing orders the two accesses. *)
Definition unordered_access (c : Config) : Prop :=
  exists g1 g2, g1 <> g2 /\
    writes_subscriber g1 c = true /\
    (reads_subscriber g2 c = true \/ writes_subscriber g2 c = true) /\
    is_Some (step g1 c) /\ is_Some (step g2 c).

(** The discipline the mutex is there for: whoever is about to access
    [d.subscriber] holds it. *)
Definition lock_discipline (c : Config) : Prop :=
  forall g, reads_subscriber g c = true \/ writes_subscriber g c = true ->
            holds_mutex g c = true.

(** The loop goroutine enters [notifySubscriber] in world [w] while [n]
    calls of [Subscribe] begin. *)
Definition start (n : nat) (w : World) : Config :=
  {| world := w; notifier := AtRange; callers := replicate n AtMake |}.

End Interleaving.

(** ** The claims' vocabulary *)

Definition up_tidb (i : topo.TiDBInfo.t) : Prop := topo.TiDBInfo.Status i = topo.ComponentStatusUp.
Definition up_pd (i : topo.PDInfo.t) : Prop := topo.PDInfo.Status i = topo.ComponentStatusUp.
Definition up_store (i : topo.StoreInfo.t) : Prop := topo.StoreInfo.Status i = topo.ComponentStatusUp.

#[global] Instance up_tidb_dec i : Decision (up_tidb i).
Proof. unfold up_tidb. apply _. Defined.
#[global] Instance up_pd_dec i : Decision (up_pd i).
Proof. unfold up_pd. apply _. Defined.
#[global] Instance up_store_dec i : Decision (up_store i).
Proof. unfold up_store. apply _. Defined.

(** The record each tier's instance is normalised to. *)
Definition tidbRecord (i : topo.TiDBInfo.t) : Component :=
  {| Name := ComponentTiDB; IP := topo.TiDBInfo.IP i;
     Port := topo.TiDBInfo.Port i; StatusPort := topo.TiDBInfo.StatusPort i |}.

Definition pdRecord (i : topo.PDInfo.t) : Component :=
  {| Name := ComponentPD; IP := topo.PDInfo.IP i;
     Port := topo.PDInfo.Port i; StatusPort := topo.PDInfo.Port i |}.

Definition storeRecord (name : string) (i : topo.StoreInfo.t) : Component :=
  {| Name := name; IP := topo.StoreInfo.IP i;
     Port := topo.StoreInfo.Port i; StatusPort := topo.StoreInfo.StatusPort i |}.

(** The snapshot as the specification words it: the four tiers in fixed
    order, each holding the records of its healthy instances in the
    registry's order. *)
Definition tiered_snapshot (tidbs : list topo.TiDBInfo.t) (pds : list topo.PDInfo.t)
    (tikvs tiflashes : list topo.StoreInfo.t) : list Component :=
  (tidbRecord <$> filter up_tidb tidbs) ++
  (pdRecord <$> filter up_pd pds) ++
  (storeRecord ComponentTiKV <$> filter up_store tikvs) ++
  (storeRecord ComponentTiFlash <$> filter up_store tiflashes).

(** A registry all of whose calls succeed. *)
Definition answering (tidbs : list topo.TiDBInfo.t) (pds : list topo.PDInfo.t)
    (tikvs tiflashes : list topo.StoreInfo.t) : Registry :=
  {| GetTiDBInstances := Ok tidbs;
     GetPDInstances := Ok pds;
     GetStoreInstances := Ok (tikvs, tiflashes) |}.

(** Some adapter returns an error on this registry. *)
Definition adapter_fails (reg : Registry) : Prop :=
  is_ok (getTiDBComponents reg) = false \/
  is_ok (getPDComponents reg) = false \/
  is_ok (getStoreComponents reg) = false.

(** All three adapters succeed on this registry. *)
Definition adapters_succeed (reg : Registry) : Prop :=
  is_ok (getTiDBComponents reg) = true /\
  is_ok (getPDComponents reg) = true /\
  is_ok (getStoreComponents reg) = true.

(** The registry with every instance that is not up removed. *)
Definition only_up (reg : Registry) : Registry :=
  {| GetTiDBInstances :=
       match GetTiDBInstances reg with Ok l => Ok (filter up_tidb l) | Err e => Err e end;
     GetPDInstances :=
       match GetPDInstances reg with Ok l => Ok (filter up_pd l) | Err e => Err e end;
     GetStoreInstances :=
       match GetStoreInstances reg with
       | Ok (kv, fl) => Ok (filter up_store kv, filter up_store fl)
       | Err e => Err e
       end |}.

(** Every mailbox was made with capacity one and holds at most one
    snapshot. *)
Definition single_slot (w : World) : Prop :=
  forall ch c, mailboxes w !! ch = Some c -> cap c = 1 /\ length (buf c) <= 1.

(** What a non-blocking publish of [v] leaves in a single-slot mailbox. *)
Definition published (v : slice Component) (c : chan (slice Component))
  : chan (slice Component) :=
  match buf c with
  | [] => MkChan [v] (cap c)
  | _ => c
  end.

(** ** Concrete inputs *)

Definition pd0 : pdclient.APIClient :=
  pdclient.APIClientOf {| httpclient.Endpoint := "http://10.0.0.2:2379"; httpclient.TLS := None |}.

Definition etcd0 : pdclient.EtcdClient :=
  pdclient.EtcdClientOf {| pdclient.Endpoints := ["10.0.0.2:2379"]; pdclient.TLS := None |}.

Definition w0 : World := init (newDiscoverer pd0 etcd0).

Definition tidb_up : topo.TiDBInfo.t :=
  topo.TiDBInfo.Mk "10.0.0.1" 4000 10080 topo.ComponentStatusUp.
Definition tidb_down : topo.TiDBInfo.t :=
  topo.TiDBInfo.Mk "10.0.0.9" 4000 10080 topo.ComponentStatusDown.
Definition pd_up : topo.PDInfo.t :=
  topo.PDInfo.Mk "10.0.0.2" 2379 topo.ComponentStatusUp.
Definition pd_offline : topo.PDInfo.t :=
  topo.PDInfo.Mk "10.0.0.8" 2379 topo.ComponentStatusOffline.
Definition tikv_up : topo.StoreInfo.t :=
  topo.StoreInfo.Mk "10.0.0.3" 20160 20180 topo.ComponentStatusUp.
Definition tikv_tombstone : topo.StoreInfo.t :=
  topo.StoreInfo.Mk "10.0.0.7" 20160 20180 topo.ComponentStatusTombstone.
Definition tiflash_up : topo.StoreInfo.t :=
  topo.StoreInfo.Mk "10.0.0.4" 3930 20292 topo.ComponentStatusUp.
Definition tiflash_unreachable : topo.StoreInfo.t :=
  topo.StoreInfo.Mk "10.0.0.6" 3930 20292 topo.ComponentStatusUnreachable.

(** The scenario of the specification: one instance per tier, no TiFlash. *)
Definition reg_scenario : Registry := answering [tidb_up] [pd_up] [tikv_up] [].

(** A healthy four-tier cluster with some instances that are not up. *)
Definition reg_mixed : Registry :=
  answering [tidb_down; tidb_up] [pd_up; pd_offline] [tikv_tombstone; tikv_up]
            [tiflash_up; tiflash_unreachable].

(** Every instance of the cluster is down. *)
Definition reg_all_down : Registry :=
  answering [tidb_down] [pd_offline] [tikv_tombstone] [tiflash_unreachable].

(** The PD HTTP API does not answer. *)
Definition reg_pd_fails : Registry :=
  {| GetTiDBInstances := Ok [tidb_up];
     GetPDInstances := Err (Error "context deadline exceeded");
     GetStoreInstances := Ok ([tikv_up], []) |}.

(** The world reached from [w0] by a list of actions (all enabled). *)
Definition world_after (acts : list action) : World := default w0 (run acts w0).

(** A subscriber registered, the loop started on a healthy cluster. *)
Definition w_running : World := world_after [ActSubscribe; ActStart reg_mixed].

(** The snapshot stored in a world is the initial nil slice or what one
    fully successful aggregation returned. *)
Definition snapshot_complete (w : World) : Prop :=
  components (d w) = Nil \/
  exists reg, adapters_succeed reg /\ getAllScrapeTargets reg = Ok (components (d w)).

(** The record [c] is the normalisation of an instance that the registry
    reports as up. *)
Definition from_up_instance (reg : Registry) (c : Component) : Prop :=
  (exists l i, GetTiDBInstances reg = Ok l /\ i ∈ l /\ up_tidb i /\ c = tidbRecord i) \/
  (exists l i, GetPDInstances reg = Ok l /\ i ∈ l /\ up_pd i /\ c = pdRecord i) \/
  (exists kv fl i, GetStoreInstances reg = Ok (kv, fl) /\ i ∈ kv /\ up_store i /\
                   c = storeRecord ComponentTiKV i) \/
  (exists kv fl i, GetStoreInstances reg = Ok (kv, fl) /\ i ∈ fl /\ up_store i /\
                   c = storeRecord ComponentTiFlash i).

(** What holds of every world between two actions: the mailboxes are
    single-slot, every registered reference has a mailbox, the mutex is
    free and the refresh signal is a single slot as well. *)
Definition consistent (w : World) : Prop :=
  single_slot w /\
  (forall ch, ch ∈ elems (subscriber (d w)) -> ch < length (mailboxes w)) /\
  mutex (d w) = false /\
  cap (notifyCh (d w)) = 1 /\
  length (buf (notifyCh (d w))) <= 1.

(** The actions of the loop goroutine that run an aggregation. *)
Definition runs_aggregation (a : action) : bool :=
  match a with
  | ActStart _ | ActSelect CaseTick _ => true
  | _ => false
  end.

(** Every registered mailbox holds a snapshot, as it does right after a
    Notifying phase. *)
Definition all_notified (w : World) : Prop :=
  forall ch, ch ∈ elems (subscriber (d w)) ->
    exists c, mailboxes w !! ch = Some c /\ buf c <> [].

(** A subscriber registered before [Start]; the first aggregation fails. *)
Definition w_first_load_failed : World := world_after [ActSubscribe; ActStart reg_pd_fails].

(** A subscriber registered, the loop not started yet. *)
Definition w_subscribed : World := world_after [ActSubscribe].

(** A configuration with one PD endpoint and no TLS, and client
    constructors that accept every configuration. *)
Definition cfg0 : config.Config :=
  {| config.PD_Endpoints := ["10.0.0.2:2379"];
     config.Security_ := {| config.SSLCA := ""; config.SSLCert := ""; config.SSLKey := "" |} |}.

Definition cfg_no_endpoint : config.Config :=
  {| config.PD_Endpoints := [];
     config.Security_ := {| config.SSLCA := ""; config.SSLCert := ""; config.SSLKey := "" |} |}.

Definition plain_scheme (cfg : config.Config) : string := "http".

Definition no_tls (s : config.Security) : option tls.Config := None.

Definition accept_api (c : httpclient.APIClientConfig) : result pdclient.APIClient :=
  Ok (pdclient.APIClientOf c).

Definition accept_etcd (c : pdclient.EtcdClientConfig) : result pdclient.EtcdClient :=
  Ok (pdclient.EtcdClientOf c).

(** While the loop goroutine is about to run [notifySubscriber] in
    [w_running], a second caller has entered [Subscribe], made its mailbox
    and taken the mutex. *)
Definition race_schedule : list Interleaving.goroutine :=
  [Interleaving.Caller 0; Interleaving.Caller 0].

Definition c_race : Interleaving.Config :=
  default (Interleaving.start 1 w_running)
          (Interleaving.schedule race_schedule (Interleaving.start 1 w_running)).

(** A snapshot value that is nil or the result of an aggregation in which
    all three adapters succeeded. *)
Definition complete_value (v : slice Component) : Prop :=
  v = Nil \/
  exists reg, adapters_succeed reg /\ getAllScrapeTargets reg = Ok v.

(** Every snapshot pending in a mailbox is such a value. *)
Definition mailboxes_complete (w : World) : Prop :=
  forall ch c v, mailboxes w !! ch = Some c -> v ∈ buf c -> complete_value v.

(** The action is not a read of mailbox [ch] by its consumer. *)
Definition not_receive_on (ch : ref) (a : action) : Prop :=
  match a with
  | ActReceive ch' => ch' <> ch
  | _ => True
  end.

(** The four tier names a record can carry. *)
Definition tier_name (n : string) : Prop :=
  n = ComponentTiDB \/ n = ComponentPD \/ n = ComponentTiKV \/ n = ComponentTiFlash.

(** A failing etcd; the PD API is healthy. *)
Definition reg_etcd_fails : Registry :=
  {| GetTiDBInstances := Err (Error "etcd: request timed out");
     GetPDInstances := Err (Error "context deadline exceeded");
     GetStoreInstances := Ok ([tikv_up], []) |}.

(** A cluster all of whose instances are up. *)
Definition reg_all_up : Registry := answering [tidb_up] [pd_up] [tikv_up] [tiflash_up].

(** The loop has returned after [Close]. *)
Definition w_returned : World :=
  world_after [ActSubscribe; ActStart reg_mixed; ActClose; ActSelect CaseClosed reg_mixed].

(** A tick has filled the single mailbox with the snapshot of [reg_mixed]. *)
Definition w_notified : World :=
  world_after [ActSubscribe; ActStart reg_mixed; ActSelect CaseTick reg_mixed].

(** The program points of [Subscribe] between [d.Lock()] and
    [d.Unlock()]. *)
Definition in_critical (pc : Interleaving.subscribe_pc) : bool :=
  match pc with
  | Interleaving.AtAppend _ | Interleaving.AtUnlock _ => true
  | _ => false
  end.

(** How many callers stand between [d.Lock()] and [d.Unlock()]. *)
Fixpoint critical_count (l : list Interleaving.subscribe_pc) : nat :=
  match l with
  | [] => 0
  | pc :: l => (if in_critical pc then 1 else 0) + critical_count l
  end.

(** The mutex is held exactly when one caller is inside. *)
Definition mutex_accounted (c : Interleaving.Config) : Prop :=
  critical_count (Interleaving.callers c) =
    if mutex (d (Interleaving.world c)) then 1 else 0.

Definition returned (pc : Interleaving.subscribe_pc) : bool :=
  match pc with Interleaving.AtReturn _ => true | _ => false end.

(** ** The document database ([package document])

    The package keeps two globals, the database handle and the channel
    that stops the value-log GC loop. Opening the badger engine, opening
    the genji database, running a value-log GC and closing the database
    are calls into external packages: their outcomes are inputs here. The
    badger options ([dataPath], compression, block size, logger) only feed
    the call that opens the engine. *)

Module document.

(** How a call ends: it returns, it panics, or the process exits
    ([log.Fatal]). *)
Inductive outcome (A : Type) : Type :=
| Returns (a : A)
| Panics (r : string)
| Exits.
Arguments Returns {A} a.
Arguments Panics {A} r.
Arguments Exits {A}.

(** [defer func() { r := recover(); if r != nil { ... } }()]. *)
Definition recover {A} (handler : string -> A) (o : outcome A) : outcome A :=
  match o with
  | Panics r => Returns (handler r)
  | _ => o
  end.

(** Opaque handles of the external packages. *)
Inductive Engine : Type := EngineNo (n : nat).
Inductive DB : Type := DBOn (e : Engine).

(** Errors of [db.RunValueLogGC]: [badger.ErrNoRewrite] or another one. *)
Inductive badger_error : Type := ErrNoRewrite | ErrOther (msg : string).

(** What [db.RunValueLogGC(0.5)] does: it panics or returns an error or
    nil. *)
Inductive gc_result : Type :=
| GCPanics (r : string)
| GCReturns (err : option badger_error).

Inductive LogEntry : Type :=
| InfoStartGCLoop          (* "badger start to run value log gc loop" *)
| InfoStopGCLoop           (* "badger stop running value log gc loop" *)
| ErrorPanicInGC (r : string)
| InfoGCSuccess
| ErrorGCFailed (err : badger_error).

Definition runValueLogGC (r : gc_result) : outcome (list LogEntry) :=
  recover (fun r => [ErrorPanicInGC r])
    match r with
    | GCPanics p => Panics p
    | GCReturns None => Returns [InfoGCSuccess]
    | GCReturns (Some ErrNoRewrite) => Returns []
    | GCReturns (Some err) => Returns [ErrorGCFailed err]
    end.

(** Where a goroutine running [doGCLoop] stands. *)
Inductive gc_pc : Type := GcSpawned | GcSelecting | GcReturned.

(** A goroutine running [doGCLoop(db, closed)]. *)
Record GCLoop : Type := {
  gc_db : Engine;
  gc_closed : ref;
  gc_at : gc_pc;
}.

Record Runtime : Type := {
  documentDB : option DB;          (* the global; [None] is nil *)
  closeCh : option ref;            (* the global; [None] is the nil channel *)
  channels : list bool;            (* the [chan struct{}] made so far: closed? *)
  gcLoops : list GCLoop;
  dlogs : list LogEntry;
}.

(** The process before any call of the package. *)
Definition boot : Runtime :=
  {| documentDB := None; closeCh := None; channels := []; gcLoops := []; dlogs := [] |}.

Definition Init (newEngine : result Engine) (newDB : Engine -> result DB) (s : Runtime)
  : outcome Runtime :=
  match newEngine with
  | Err err => Exits
  | Ok engine =>
      let ch := length (channels s) in
      let loops := gcLoops s ++ [ {| gc_db := engine; gc_closed := ch; gc_at := GcSpawned |} ] in
      match newDB engine with
      | Err err => Exits
      | Ok db =>
          Returns {| documentDB := Some db; closeCh := Some ch;
                     channels := channels s ++ [false]; gcLoops := loops;
                     dlogs := dlogs s |}
      end
  end.

Definition Get (s : Runtime) : option DB := documentDB s.

(** [close(closeCh)] panics on the nil channel and on a closed channel;
    a failing [documentDB.Close()] ends the process. *)
Definition Stop (closeErr : option error) (s : Runtime) : outcome Runtime :=
  match closeCh s with
  | None => Panics "close of nil channel"
  | Some ch =>
      match channels s !! ch with
      | Some false =>
          match documentDB s with
          | None => Panics "invalid memory address or nil pointer dereference"
          | Some db =>
              match closeErr with
              | Some err => Exits
              | None =>
                  Returns {| documentDB := documentDB s; closeCh := closeCh s;
                             channels := <[ch := true]> (channels s);
                             gcLoops := gcLoops s; dlogs := dlogs s |}
              end
          end
      | _ => Panics "close of closed channel"
      end
  end.

(** The case of the [select] of [doGCLoop] that is taken. *)
Inductive gc_case : Type := TickCase (r : gc_result) | ClosedCase.

Definition set_loop (i : nat) (g : GCLoop) (l : list LogEntry) (s : Runtime) : Runtime :=
  {| documentDB := documentDB s; closeCh := closeCh s; channels := channels s;
     gcLoops := <[i := g]> (gcLoops s); dlogs := dlogs s ++ l |}.

Definition at_pc (pc : gc_pc) (g : GCLoop) : GCLoop :=
  {| gc_db := gc_db g; gc_closed := gc_closed g; gc_at := pc |}.

(** The goroutine starts: the first log line, the ticker. *)
Definition gcBegin (i : nat) (s : Runtime) : option Runtime :=
  g ← gcLoops s !! i;
  match gc_at g with
  | GcSpawned => Some (set_loop i (at_pc GcSelecting g) [InfoStartGCLoop] s)
  | _ => None
  end.

(** One iteration of the [for { select { ... } }] of [doGCLoop]; on
    return, and when a panic passes through, the deferred function logs the
    stop line. *)
Definition gcSelect (i : nat) (c : gc_case) (s : Runtime) : option Runtime :=
  g ← gcLoops s !! i;
  match gc_at g with
  | GcSelecting =>
      match c with
      | TickCase r =>
          match runValueLogGC r with
          | Returns l => Some (set_loop i g l s)
          | _ => Some (set_loop i (at_pc GcReturned g) [InfoStopGCLoop] s)
          end
      | ClosedCase =>
          match channels s !! gc_closed g with
          | Some true => Some (set_loop i (at_pc GcReturned g) [InfoStopGCLoop] s)
          | _ => None
          end
      end
  | _ => None
  end.

Inductive action : Type :=
| DoInit (newEngine : result Engine) (newDB : Engine -> result DB)
| DoStop (closeErr : option error)
| DoGcBegin (i : nat)
| DoGcSelect (i : nat) (c : gc_case).

(** A step of the process; [None] when the step is not enabled or the
    call does not return. *)
Definition act (a : action) (s : Runtime) : option Runtime :=
  match a with
  | DoInit newEngine newDB =>
      match Init newEngine newDB s with Returns s' => Some s' | _ => None end
  | DoStop closeErr =>
      match Stop closeErr s with Returns s' => Some s' | _ => None end
  | DoGcBegin i => gcBegin i s
  | DoGcSelect i c => gcSelect i c s
  end.

Fixpoint run (acts : list action) (s : Runtime) : option Runtime :=
  match acts with
  | [] => Some s
  | a :: rest => s' ← act a s; run rest s'
  end.

Inductive reachable : Runtime -> Prop :=
| reachable_boot : reachable boot
| reachable_act a s s' : reachable s -> act a s = Some s' -> reachable s'.

Definition is_init (a : action) : bool :=
  match a with DoInit _ _ => true | _ => false end.

(** What one GC run adds to the log. *)
Definition gc_log (r : gc_result) : list LogEntry :=
  match r with
  | GCPanics p => [ErrorPanicInGC p]
  | GCReturns None => [InfoGCSuccess]
  | GCReturns (Some ErrNoRewrite) => []
  | GCReturns (Some err) => [ErrorGCFailed err]
  end.

(** Sample outcomes: the engine and the database open. *)
Definition engine_ok (n : nat) : result Engine := Ok (EngineNo n).
Definition db_ok (e : Engine) : result DB := Ok (DBOn e).

End document.

(** * Properties *)

(** ** Slices and channels *)

Lemma append_Mk {A} (xs ys : list A) : append (Go.Mk xs) ys = Go.Mk (xs ++ ys).
Proof. reflexivity. Qed.

Lemma append_not_nil {A} (s : slice A) (ys : list A) :
  is_nil s = false -> is_nil (append s ys) = false.
Proof. destruct s; [discriminate | reflexivity]. Qed.

Lemma try_send_cap {A} (c : chan A) (v : A) : cap (fst (try_send c v)) = cap c.
Proof. unfold try_send. destruct (decide _); reflexivity. Qed.

Lemma try_send_bound {A} (c : chan A) (v : A) :
  length (buf c) <= cap c -> length (buf (fst (try_send c v))) <= cap (fst (try_send c v)).
Proof.
  unfold try_send. destruct (decide _) as [Hlt|]; simpl; [|done].
  intros _. rewrite length_app. simpl. lia.
Qed.

Lemma try_send_single_slot (c : chan (slice Component)) (v : slice Component) :
  cap c = 1 -> fst (try_send c v) = published v c.
Proof.
  intros Hcap. unfold try_send, published. destruct c as [b n]. simpl in *. subst n.
  destruct b as [|x b]; [reflexivity|].
  case_decide; [simpl in *; lia | reflexivity].
Qed.

(** ** The adapters filter and normalise *)

Lemma rangeTiDB_spec (l : list topo.TiDBInfo.t) (acc : list Component) :
  rangeTiDB l (Go.Mk acc) = Go.Mk (acc ++ (tidbRecord <$> filter up_tidb l)).
Proof.
  revert acc. induction l as [|i l IH]; intros acc; simpl.
  - by rewrite app_nil_r.
  - destruct (decide (topo.TiDBInfo.Status i <> topo.ComponentStatusUp)) as [Hd|Hu].
    + rewrite filter_cons_False by (unfold up_tidb; done). apply IH.
    + assert (up_tidb i) by (unfold up_tidb; by destruct (decide (topo.TiDBInfo.Status i = topo.ComponentStatusUp))).
      rewrite filter_cons_True by done. rewrite IH, fmap_cons.
      by rewrite <- app_assoc.
Qed.

Lemma rangePD_spec (l : list topo.PDInfo.t) (acc : list Component) :
  rangePD l (Go.Mk acc) = Go.Mk (acc ++ (pdRecord <$> filter up_pd l)).
Proof.
  revert acc. induction l as [|i l IH]; intros acc; simpl.
  - by rewrite app_nil_r.
  - destruct (decide (topo.PDInfo.Status i <> topo.ComponentStatusUp)) as [Hd|Hu].
    + rewrite filter_cons_False by (unfold up_pd; done). apply IH.
    + assert (up_pd i) by (unfold up_pd; by destruct (decide (topo.PDInfo.Status i = topo.ComponentStatusUp))).
      rewrite filter_cons_True by done. rewrite IH, fmap_cons.
      by rewrite <- app_assoc.
Qed.

Lemma getComponents_spec (l : list topo.StoreInfo.t) (name : string) (acc : list Component) :
  getComponents l name (Go.Mk acc) = Go.Mk (acc ++ (storeRecord name <$> filter up_store l)).
Proof.
  revert acc. induction l as [|i l IH]; intros acc; simpl.
  - by rewrite app_nil_r.
  - destruct (decide (topo.StoreInfo.Status i <> topo.ComponentStatusUp)) as [Hd|Hu].
    + rewrite filter_cons_False by (unfold up_store; done). apply IH.
    + assert (up_store i) by (unfold up_store; by destruct (decide (topo.StoreInfo.Status i = topo.ComponentStatusUp))).
      rewrite filter_cons_True by done. rewrite IH, fmap_cons.
      by rewrite <- app_assoc.
Qed.

Lemma getTiDBComponents_ok reg l :
  GetTiDBInstances reg = Ok l ->
  getTiDBComponents reg = Ok (Go.Mk (tidbRecord <$> filter up_tidb l)).
Proof. intros H. unfold getTiDBComponents, make0. by rewrite H, rangeTiDB_spec. Qed.

Lemma getPDComponents_ok reg l :
  GetPDInstances reg = Ok l ->
  getPDComponents reg = Ok (Go.Mk (pdRecord <$> filter up_pd l)).
Proof. intros H. unfold getPDComponents, make0. by rewrite H, rangePD_spec. Qed.

Lemma getStoreComponents_ok reg kv fl :
  GetStoreInstances reg = Ok (kv, fl) ->
  getStoreComponents reg =
    Ok (Go.Mk ((storeRecord ComponentTiKV <$> filter up_store kv) ++
               (storeRecord ComponentTiFlash <$> filter up_store fl))).
Proof.
  intros H. unfold getStoreComponents, make0. rewrite H.
  by rewrite !getComponents_spec.
Qed.

(** An adapter fails exactly when its registry call does. *)
Lemma getTiDBComponents_is_ok reg : is_ok (getTiDBComponents reg) = is_ok (GetTiDBInstances reg).
Proof. unfold getTiDBComponents. by destruct (GetTiDBInstances reg). Qed.

Lemma getPDComponents_is_ok reg : is_ok (getPDComponents reg) = is_ok (GetPDInstances reg).
Proof. unfold getPDComponents. by destruct (GetPDInstances reg). Qed.

Lemma getStoreComponents_is_ok reg : is_ok (getStoreComponents reg) = is_ok (GetStoreInstances reg).
Proof. unfold getStoreComponents. by destruct (GetStoreInstances reg) as [[]|]. Qed.

(** ** The aggregator *)

Lemma getAllScrapeTargets_ok reg tidbs pds kv fl :
  GetTiDBInstances reg = Ok tidbs ->
  GetPDInstances reg = Ok pds ->
  GetStoreInstances reg = Ok (kv, fl) ->
  getAllScrapeTargets reg = Ok (Go.Mk (tiered_snapshot tidbs pds kv fl)).
Proof.
  intros H1 H2 H3. unfold getAllScrapeTargets, make0. simpl.
  rewrite (getTiDBComponents_ok _ _ H1), (getPDComponents_ok _ _ H2),
    (getStoreComponents_ok _ _ _ H3).
  simpl. unfold tiered_snapshot. by rewrite <- !app_assoc.
Qed.

Lemma adapters_succeed_answers reg :
  adapters_succeed reg ->
  exists tidbs pds kv fl,
    GetTiDBInstances reg = Ok tidbs /\ GetPDInstances reg = Ok pds /\
    GetStoreInstances reg = Ok (kv, fl).
Proof.
  intros (H1 & H2 & H3).
  rewrite getTiDBComponents_is_ok in H1. rewrite getPDComponents_is_ok in H2.
  rewrite getStoreComponents_is_ok in H3.
  destruct (GetTiDBInstances reg) as [tidbs|]; [|discriminate].
  destruct (GetPDInstances reg) as [pds|]; [|discriminate].
  destruct (GetStoreInstances reg) as [[kv fl]|]; [|discriminate].
  by exists tidbs, pds, kv, fl.
Qed.

Lemma getAllScrapeTargets_fails reg :
  adapter_fails reg -> is_ok (getAllScrapeTargets reg) = false.
Proof.
  unfold adapter_fails, getAllScrapeTargets. simpl.
  destruct (getTiDBComponents reg); [|done].
  destruct (getPDComponents reg); [|done].
  destruct (getStoreComponents reg); [|done].
  simpl. intros [H|[H|H]]; discriminate.
Qed.

Lemma getAllScrapeTargets_succeeds reg s :
  getAllScrapeTargets reg = Ok s -> adapters_succeed reg /\ is_nil s = false.
Proof.
  unfold adapters_succeed, getAllScrapeTargets. simpl.
  destruct (getTiDBComponents reg); [|done].
  destruct (getPDComponents reg); [|done].
  destruct (getStoreComponents reg); [|done].
  intros [= <-]. done.
Qed.

(** ** The operations and the discoverer's fields *)

Lemma d_sendTo ch w : d (sendTo ch w) = d w.
Proof. reflexivity. Qed.

Lemma d_rangeSubscriber chs w : d (rangeSubscriber chs w) = d w.
Proof. revert w. induction chs as [|ch chs IH]; intros w; simpl; [done|]. by rewrite IH. Qed.

Lemma d_notifySubscriber w : d (notifySubscriber w) = d w.
Proof. apply d_rangeSubscriber. Qed.

Lemma logs_rangeSubscriber chs w : logs (rangeSubscriber chs w) = logs w.
Proof. revert w. induction chs as [|ch chs IH]; intros w; simpl; [done|]. by rewrite IH. Qed.

Lemma loop_rangeSubscriber chs w : loop (rangeSubscriber chs w) = loop w.
Proof. revert w. induction chs as [|ch chs IH]; intros w; simpl; [done|]. by rewrite IH. Qed.

Lemma loadTopology_ok reg s w :
  getAllScrapeTargets reg = Ok s ->
  loadTopology reg w = (with_d (set_components s) w, None).
Proof. intros H. unfold loadTopology. by rewrite H. Qed.

Lemma loadTopology_err reg w :
  is_ok (getAllScrapeTargets reg) = false ->
  exists err, getAllScrapeTargets reg = Err err /\ loadTopology reg w = (w, Some err).
Proof.
  intros H. unfold loadTopology. destruct (getAllScrapeTargets reg) as [|err]; [done|].
  by exists err.
Qed.

(** A cycle either keeps the stored snapshot or stores a complete result. *)
Lemma loadTopology_components reg w :
  (is_ok (getAllScrapeTargets reg) = false /\ fst (loadTopology reg w) = w) \/
  (exists s, getAllScrapeTargets reg = Ok s /\
             fst (loadTopology reg w) = with_d (set_components s) w).
Proof.
  unfold loadTopology. destruct (getAllScrapeTargets reg) as [s|err]; [right|left]; eauto.
Qed.

Lemma loopPrologue_components reg w :
  components (d (loopPrologue reg w)) = components (d (fst (loadTopology reg w))).
Proof. unfold loopPrologue. by destruct (loadTopology reg w). Qed.

Lemma loopIteration_tick_components reg w :
  exists w', loopIteration CaseTick reg w = Some w' /\
             components (d w') = components (d (fst (loadTopology reg w))).
Proof.
  unfold loopIteration. destruct (loadTopology reg w) as [w1 [err|]]; simpl;
    eexists; (split; [reflexivity|]); by rewrite d_notifySubscriber.
Qed.

Lemma Subscribe_components w w' ch :
  Subscribe w = Some (w', ch) -> components (d w') = components (d w).
Proof.
  unfold Subscribe, Lock. simpl. destruct (mutex (d w)); simpl; [done|]. by intros [= <- _].
Qed.

Lemma receive_d ch w w' : receive ch w = Some w' -> d w' = d w.
Proof.
  unfold receive. destruct (mailboxes w !! ch) as [c|]; simpl; [|done].
  destruct (recv c); simpl; [|done]. by intros [= <-].
Qed.

Lemma snapshot_complete_eq w w' :
  components (d w') = components (d w) -> snapshot_complete w -> snapshot_complete w'.
Proof. unfold snapshot_complete. intros ->. done. Qed.

Lemma snapshot_complete_load reg w :
  snapshot_complete w -> snapshot_complete (fst (loadTopology reg w)).
Proof.
  intros Hw. destruct (loadTopology_components reg w) as [[_ ->]|(s & Hs & ->)]; [done|].
  right. exists reg. split; [|done]. by apply getAllScrapeTargets_succeeds in Hs as [? _].
Qed.

Lemma act_snapshot_complete a w w' :
  act a w = Some w' -> snapshot_complete w -> snapshot_complete w'.
Proof.
  destruct a as [|ch| |reg|c reg]; simpl.
  - destruct (Subscribe w) as [[w1 ch]|] eqn:E; simpl; [|done].
    intros [= <-]. apply snapshot_complete_eq. by eapply Subscribe_components.
  - intros H. apply snapshot_complete_eq. by rewrite (receive_d _ _ _ H).
  - unfold Close. destruct (closed (d w)); [done|]. intros [= <-]. by apply snapshot_complete_eq.
  - destruct (loop w); try done. intros [= <-] Hw.
    eapply snapshot_complete_eq; [|by apply (snapshot_complete_load reg)].
    simpl. apply loopPrologue_components.
  - destruct (loop w); try done. destruct c.
    + simpl. destruct (closed (d w)); [|done]. intros [= <-]. by apply snapshot_complete_eq.
    + destruct (loopIteration_tick_components reg w) as (w1 & -> & Hc).
      intros [= <-] Hw. eapply snapshot_complete_eq; [exact Hc|].
      by apply snapshot_complete_load.
    + simpl. destruct (recv (notifyCh (d w))) as [[? c]|]; [|done].
      intros [= <-]. apply snapshot_complete_eq. by rewrite d_notifySubscriber.
Qed.

Lemma reachable_snapshot_complete w : reachable w -> snapshot_complete w.
Proof.
  induction 1 as [| a w w' _ IH Hact]; [by left | by eapply act_snapshot_complete].
Qed.

Lemma reachable_run acts w w' : reachable w -> run acts w = Some w' -> reachable w'.
Proof.
  revert w. induction acts as [|a acts IH]; intros w Hw; simpl.
  - by intros [= <-].
  - destruct (act a w) as [w1|] eqn:E; simpl; [|done].
    intros H. eapply IH; [|exact H]. by eapply reachable_act.
Qed.

Lemma reachable_world_after acts : is_Some (run acts w0) -> reachable (world_after acts).
Proof.
  intros [w H]. unfold world_after. rewrite H. simpl.
  eapply reachable_run; [apply reachable_init | exact H].
Qed.

Lemma reachable_w_running : reachable w_running.
Proof. apply reachable_world_after. vm_compute. eexists. reflexivity. Qed.

Lemma reachable_w_first_load_failed : reachable w_first_load_failed.
Proof. apply reachable_world_after. vm_compute. eexists. reflexivity. Qed.

Lemma reachable_w_subscribed : reachable w_subscribed.
Proof. apply reachable_world_after. vm_compute. eexists. reflexivity. Qed.

(** ** Failed and successful cycles *)

(** C1. If one of the three adapters returns an error during a cycle, the
    snapshot stored after the cycle (be it the first aggregation of the
    loop or one run on a timer tick) is the snapshot stored before it and
    the error is reported and logged; and the snapshot of every reachable
    world is the initial nil slice or the complete result of an aggregation
    in which all three adapters succeeded. *)
Theorem C1_failed_cycle_keeps_snapshot (w : World) (reg : Registry) :
  reachable w -> adapter_fails reg ->
  (exists err,
     loadTopology reg w = (w, Some err) /\
     components (d (loopPrologue reg w)) = components (d w) /\
     exists w', loopIteration CaseTick reg w = Some w' /\
                components (d w') = components (d w) /\
                logs w' = logs w ++ [ErrorLoadTopologyFailed err]) /\
  snapshot_complete w.
Proof.
  intros Hw Hf. split; [|by apply reachable_snapshot_complete].
  apply getAllScrapeTargets_fails in Hf.
  destruct (loadTopology_err reg w Hf) as (err & _ & Hl).
  exists err. split; [exact Hl|]. split.
  - by rewrite loopPrologue_components, Hl.
  - unfold loopIteration. rewrite Hl. eexists. split; [reflexivity|].
    rewrite d_notifySubscriber. split; [done|]. unfold notifySubscriber.
    by rewrite logs_rangeSubscriber.
Qed.

Lemma C1_failed_cycle_witness :
  reachable w_running /\ adapter_fails reg_pd_fails /\
  (exists err, loadTopology reg_pd_fails w_running = (w_running, Some err)) /\
  snapshot_complete w_running.
Proof.
  pose proof reachable_w_running as Hr.
  assert (Hf : adapter_fails reg_pd_fails).
  { right. left. reflexivity. }
  split; [exact Hr|]. split; [exact Hf|].
  destruct (C1_failed_cycle_keeps_snapshot w_running reg_pd_fails Hr Hf)
    as ((err & Hl & _) & Hc).
  split; [exists err; exact Hl | exact Hc].
Defined.

(** C2. In every cycle in which all three adapters succeed, the resulting
    snapshot is, in this order, the records of the healthy TiDB instances,
    of the healthy PD instances, of the healthy TiKV stores and of the
    healthy TiFlash stores, each tier in the order of its registry's
    answer, that is the results of the TiDB, PD and store adapters one
    after the other; this snapshot is what the cycle stores. *)
Theorem C2_snapshot_tiers_in_order (w : World) (reg : Registry) :
  adapters_succeed reg ->
  exists tidbs pds tikvs tiflashes,
    GetTiDBInstances reg = Ok tidbs /\
    GetPDInstances reg = Ok pds /\
    GetStoreInstances reg = Ok (tikvs, tiflashes) /\
    let tidb := tidbRecord <$> filter up_tidb tidbs in
    let pd := pdRecord <$> filter up_pd pds in
    let tikv := storeRecord ComponentTiKV <$> filter up_store tikvs in
    let tiflash := storeRecord ComponentTiFlash <$> filter up_store tiflashes in
    let snapshot := tidb ++ pd ++ tikv ++ tiflash in
    getTiDBComponents reg = Ok (Go.Mk tidb) /\
    getPDComponents reg = Ok (Go.Mk pd) /\
    getStoreComponents reg = Ok (Go.Mk (tikv ++ tiflash)) /\
    getAllScrapeTargets reg = Ok (Go.Mk snapshot) /\
    loadTopology reg w = (with_d (set_components (Go.Mk snapshot)) w, None) /\
    components (d (loopPrologue reg w)) = Go.Mk snapshot /\
    exists w', loopIteration CaseTick reg w = Some w' /\
               components (d w') = Go.Mk snapshot.
Proof.
  intros Hs. destruct (adapters_succeed_answers reg Hs) as (tidbs & pds & kv & fl & H1 & H2 & H3).
  exists tidbs, pds, kv, fl. do 3 (split; [done|]).
  pose proof (getAllScrapeTargets_ok reg _ _ _ _ H1 H2 H3) as Hall.
  unfold tiered_snapshot in Hall. cbv zeta.
  pose proof (loadTopology_ok reg _ w Hall) as Hl.
  split; [by apply getTiDBComponents_ok|]. split; [by apply getPDComponents_ok|].
  split; [by apply getStoreComponents_ok|].
  split; [exact Hall|]. split; [exact Hl|]. split.
  - by rewrite loopPrologue_components, Hl.
  - destruct (loopIteration_tick_components reg w) as (w' & Hw' & Hc).
    exists w'. split; [done|]. by rewrite Hc, Hl.
Qed.

Lemma C2_snapshot_tiers_witness :
  adapters_succeed reg_mixed /\
  getAllScrapeTargets reg_mixed =
    Ok (Go.Mk [tidbRecord tidb_up; pdRecord pd_up;
               storeRecord ComponentTiKV tikv_up; storeRecord ComponentTiFlash tiflash_up]).
Proof.
  assert (Hs : adapters_succeed reg_mixed) by (repeat split; reflexivity).
  split; [exact Hs|].
  destruct (C2_snapshot_tiers_in_order w0 reg_mixed Hs)
    as (tidbs & pds & kv & fl & H1 & H2 & H3 & _ & _ & _ & Hall & _).
  injection H1 as <-. injection H2 as <-. injection H3 as <- <-. exact Hall.
Defined.

(** ** The health filter *)

Lemma filter_idem {A} (P : A -> Prop) `{!forall x, Decision (P x)} (l : list A) :
  filter P (filter P l) = filter P l.
Proof.
  induction l as [|x l IH]; [done|].
  destruct (decide (P x)).
  - rewrite (filter_cons_True P x l) by done.
    rewrite filter_cons_True by done. by rewrite IH.
  - by rewrite filter_cons_False by done.
Qed.

Lemma getTiDBComponents_only_up reg : getTiDBComponents reg = getTiDBComponents (only_up reg).
Proof.
  destruct (GetTiDBInstances reg) as [l|e] eqn:E.
  - rewrite (getTiDBComponents_ok reg l E).
    rewrite (getTiDBComponents_ok (only_up reg) (filter up_tidb l)) by (simpl; by rewrite E).
    by rewrite filter_idem.
  - unfold getTiDBComponents. simpl. by rewrite E.
Qed.

Lemma getPDComponents_only_up reg : getPDComponents reg = getPDComponents (only_up reg).
Proof.
  destruct (GetPDInstances reg) as [l|e] eqn:E.
  - rewrite (getPDComponents_ok reg l E).
    rewrite (getPDComponents_ok (only_up reg) (filter up_pd l)) by (simpl; by rewrite E).
    by rewrite filter_idem.
  - unfold getPDComponents. simpl. by rewrite E.
Qed.

Lemma getStoreComponents_only_up reg : getStoreComponents reg = getStoreComponents (only_up reg).
Proof.
  destruct (GetStoreInstances reg) as [[kv fl]|e] eqn:E.
  - rewrite (getStoreComponents_ok reg kv fl E).
    rewrite (getStoreComponents_ok (only_up reg) (filter up_store kv) (filter up_store fl))
      by (simpl; by rewrite E).
    by rewrite !filter_idem.
  - unfold getStoreComponents. simpl. by rewrite E.
Qed.

Lemma getAllScrapeTargets_only_up reg : getAllScrapeTargets reg = getAllScrapeTargets (only_up reg).
Proof.
  unfold getAllScrapeTargets. simpl.
  by rewrite <- getTiDBComponents_only_up, <- getPDComponents_only_up,
    <- getStoreComponents_only_up.
Qed.

Lemma getAllScrapeTargets_from_up reg s c :
  getAllScrapeTargets reg = Ok s -> c ∈ elems s -> from_up_instance reg c.
Proof.
  intros Hs Hc.
  destruct (getAllScrapeTargets_succeeds reg s Hs) as [Hok _].
  destruct (adapters_succeed_answers reg Hok) as (tidbs & pds & kv & fl & H1 & H2 & H3).
  rewrite (getAllScrapeTargets_ok reg _ _ _ _ H1 H2 H3) in Hs. injection Hs as <-.
  simpl in Hc. unfold tiered_snapshot in Hc. rewrite !elem_of_app in Hc.
  unfold from_up_instance.
  destruct Hc as [Hc|[Hc|[Hc|Hc]]];
    apply list_elem_of_fmap in Hc as (i & -> & Hi);
    apply list_elem_of_filter in Hi as [Hup Hi].
  - left. by exists tidbs, i.
  - right; left. by exists pds, i.
  - right; right; left. by exists kv, fl, i.
  - right; right; right. by exists kv, fl, i.
Qed.

(** C5. Instances whose status is not up are silently excluded by every
    adapter: each adapter, and the aggregation as a whole, returns on a
    registry answer exactly what it returns on the same answer with those
    instances removed, and it fails only when the registry call itself
    fails; every record of an aggregation result is the record of an
    instance reported as up, and so is every record of the snapshot stored
    in any reachable world. *)
Theorem C5_not_up_instances_excluded (reg : Registry) :
  (getTiDBComponents reg = getTiDBComponents (only_up reg) /\
   getPDComponents reg = getPDComponents (only_up reg) /\
   getStoreComponents reg = getStoreComponents (only_up reg) /\
   getAllScrapeTargets reg = getAllScrapeTargets (only_up reg)) /\
  (is_ok (getTiDBComponents reg) = is_ok (GetTiDBInstances reg) /\
   is_ok (getPDComponents reg) = is_ok (GetPDInstances reg) /\
   is_ok (getStoreComponents reg) = is_ok (GetStoreInstances reg)) /\
  (forall s c, getAllScrapeTargets reg = Ok s -> c ∈ elems s -> from_up_instance reg c) /\
  (forall w c, reachable w -> c ∈ elems (components (d w)) ->
               exists reg', from_up_instance reg' c).
Proof.
  split; [|split; [|split]].
  - auto using getTiDBComponents_only_up, getPDComponents_only_up,
      getStoreComponents_only_up, getAllScrapeTargets_only_up.
  - auto using getTiDBComponents_is_ok, getPDComponents_is_ok, getStoreComponents_is_ok.
  - apply getAllScrapeTargets_from_up.
  - intros w c Hw Hc. destruct (reachable_snapshot_complete w Hw) as [Hnil|(reg' & _ & Hs)].
    + rewrite Hnil in Hc. simpl in Hc. by apply elem_of_nil in Hc.
    + exists reg'. by eapply getAllScrapeTargets_from_up.
Qed.

Lemma C5_not_up_instances_witness :
  getAllScrapeTargets reg_mixed = getAllScrapeTargets (only_up reg_mixed) /\
  from_up_instance reg_mixed (tidbRecord tidb_up) /\
  exists reg', from_up_instance reg' (pdRecord pd_up).
Proof.
  destruct (C5_not_up_instances_excluded reg_mixed) as ((_ & _ & _ & Hall) & _ & Hin & Hreach).
  split; [exact Hall|]. split.
  - apply (Hin (Go.Mk [tidbRecord tidb_up; pdRecord pd_up;
                       storeRecord ComponentTiKV tikv_up;
                       storeRecord ComponentTiFlash tiflash_up])).
    + reflexivity.
    + simpl. apply list_elem_of_here.
  - apply (Hreach w_running).
    + exact reachable_w_running.
    + apply list_elem_of_further, list_elem_of_here.
Defined.

(** ** Normalisation per tier *)

(** The scenario of the specification, evaluated. *)
Example scenario_snapshot :
  getAllScrapeTargets reg_scenario =
    Ok (Go.Mk [ {| Name := "tidb"; IP := "10.0.0.1"; Port := 4000; StatusPort := 10080 |};
                {| Name := "pd"; IP := "10.0.0.2"; Port := 2379; StatusPort := 2379 |};
                {| Name := "tikv"; IP := "10.0.0.3"; Port := 20160; StatusPort := 20180 |} ]).
Proof. reflexivity. Qed.

(** C8. The PD adapter turns every PD instance that is up into a record
    named [pd] whose status port is the instance's service port, so every
    record it returns has [StatusPort = Port]; the TiDB adapter and the
    store adapter (TiKV and TiFlash) keep each instance's own status port. *)
Theorem C8_pd_status_port_is_port (reg : Registry) :
  (forall l, GetPDInstances reg = Ok l ->
     getPDComponents reg =
       Ok (Go.Mk ((fun i => {| Name := "pd"; IP := topo.PDInfo.IP i;
                               Port := topo.PDInfo.Port i;
                               StatusPort := topo.PDInfo.Port i |})
                  <$> filter up_pd l))) /\
  (forall s c, getPDComponents reg = Ok s -> c ∈ elems s ->
     Name c = "pd" /\ StatusPort c = Port c) /\
  (forall l, GetTiDBInstances reg = Ok l ->
     getTiDBComponents reg =
       Ok (Go.Mk ((fun i => {| Name := "tidb"; IP := topo.TiDBInfo.IP i;
                               Port := topo.TiDBInfo.Port i;
                               StatusPort := topo.TiDBInfo.StatusPort i |})
                  <$> filter up_tidb l))) /\
  (forall kv fl, GetStoreInstances reg = Ok (kv, fl) ->
     getStoreComponents reg =
       Ok (Go.Mk (((fun i => {| Name := "tikv"; IP := topo.StoreInfo.IP i;
                                Port := topo.StoreInfo.Port i;
                                StatusPort := topo.StoreInfo.StatusPort i |})
                   <$> filter up_store kv) ++
                  ((fun i => {| Name := "tiflash"; IP := topo.StoreInfo.IP i;
                                Port := topo.StoreInfo.Port i;
                                StatusPort := topo.StoreInfo.StatusPort i |})
                   <$> filter up_store fl)))).
Proof.
  split; [|split; [|split]].
  - intros l Hl. by rewrite (getPDComponents_ok reg l Hl).
  - intros s c Hs Hc.
    destruct (GetPDInstances reg) as [l|e] eqn:E.
    + rewrite (getPDComponents_ok reg l E) in Hs. injection Hs as <-. simpl in Hc.
      apply list_elem_of_fmap in Hc as (i & -> & _). done.
    + unfold getPDComponents in Hs. by rewrite E in Hs.
  - intros l Hl. by rewrite (getTiDBComponents_ok reg l Hl).
  - intros kv fl Hl. by rewrite (getStoreComponents_ok reg kv fl Hl).
Qed.

Lemma C8_pd_status_port_witness :
  GetPDInstances reg_mixed = Ok [pd_up; pd_offline] /\
  getPDComponents reg_mixed =
    Ok (Go.Mk [ {| Name := "pd"; IP := "10.0.0.2"; Port := 2379; StatusPort := 2379 |} ]) /\
  GetTiDBInstances reg_mixed = Ok [tidb_down; tidb_up] /\
  getTiDBComponents reg_mixed =
    Ok (Go.Mk [ {| Name := "tidb"; IP := "10.0.0.1"; Port := 4000; StatusPort := 10080 |} ]).
Proof.
  destruct (C8_pd_status_port_is_port reg_mixed) as (Hpd & _ & Htidb & _).
  split; [reflexivity|]. split; [exact (Hpd _ eq_refl)|].
  split; [reflexivity|]. exact (Htidb _ eq_refl).
Defined.

(** ** A cluster with no healthy instance *)

Lemma filter_none {A} (P : A -> Prop) `{!forall x, Decision (P x)} (l : list A) :
  Forall (fun x => ~ P x) l -> filter P l = [].
Proof.
  induction 1 as [|x l Hx _ IH]; [done|]. by rewrite filter_cons_False.
Qed.

Lemma loopIteration_tick_eq reg reg' w :
  getAllScrapeTargets reg = getAllScrapeTargets reg' ->
  loopIteration CaseTick reg w = loopIteration CaseTick reg' w /\
  loopPrologue reg w = loopPrologue reg' w.
Proof. intros H. unfold loopIteration, loopPrologue, loadTopology. by rewrite H. Qed.

(** C10. When all registry calls succeed and no instance is up, the
    aggregation returns the empty non-nil slice; the cycle stores it in
    place of whatever snapshot was stored before, and the world after the
    cycle (snapshot, mailboxes, log) is the very world a cluster with no
    instance at all would have produced. *)
Theorem C10_all_down_gives_empty_snapshot (w : World)
    (tidbs : list topo.TiDBInfo.t) (pds : list topo.PDInfo.t)
    (tikvs tiflashes : list topo.StoreInfo.t) :
  Forall (fun i => ~ up_tidb i) tidbs ->
  Forall (fun i => ~ up_pd i) pds ->
  Forall (fun i => ~ up_store i) tikvs ->
  Forall (fun i => ~ up_store i) tiflashes ->
  let reg := answering tidbs pds tikvs tiflashes in
  getAllScrapeTargets reg = Ok (Go.Mk []) /\
  loadTopology reg w = (with_d (set_components (Go.Mk [])) w, None) /\
  (exists w', loopIteration CaseTick reg w = Some w' /\
              components (d w') = Go.Mk [] /\
              is_nil (components (d w')) = false /\
              len (components (d w')) = 0) /\
  loopIteration CaseTick reg w = loopIteration CaseTick (answering [] [] [] []) w /\
  loopPrologue reg w = loopPrologue (answering [] [] [] []) w.
Proof.
  intros H1 H2 H3 H4 reg.
  assert (Hall : getAllScrapeTargets reg = Ok (Go.Mk [])).
  { rewrite (getAllScrapeTargets_ok reg tidbs pds tikvs tiflashes) by done.
    unfold tiered_snapshot. by rewrite !filter_none. }
  split; [exact Hall|]. split; [by apply loadTopology_ok|]. split.
  - destruct (loopIteration_tick_components reg w) as (w' & Hw' & Hc).
    rewrite (loadTopology_ok reg _ w Hall) in Hc. simpl in Hc.
    exists w'. by rewrite Hc.
  - by apply loopIteration_tick_eq.
Qed.

Lemma C10_all_down_witness :
  len (components (d w_running)) = 4 /\
  exists w', loopIteration CaseTick reg_all_down w_running = Some w' /\
             components (d w') = Go.Mk [].
Proof.
  split; [reflexivity|].
  assert (H : forall (A : Type) (P : A -> Prop) (x : A), ~ P x -> Forall (fun i => ~ P i) [x]).
  { intros A P x Hx. apply Forall_cons. split; [exact Hx | apply Forall_nil_2]. }
  destruct (C10_all_down_gives_empty_snapshot w_running
              [tidb_down] [pd_offline] [tikv_tombstone] [tiflash_unreachable])
    as (_ & _ & (w' & Hw' & Hc & _) & _).
  - apply H. discriminate.
  - apply H. discriminate.
  - apply H. discriminate.
  - apply H. discriminate.
  - exists w'. split; [exact Hw' | exact Hc].
Defined.

(** ** Mailboxes and the fan-out *)

Lemma published_idem v c : published v (published v c) = published v c.
Proof. unfold published. by destruct (buf c) eqn:E; simpl; [|rewrite E]. Qed.

Lemma published_bound v c :
  cap c = 1 -> length (buf c) <= 1 ->
  cap (published v c) = 1 /\ length (buf (published v c)) <= 1.
Proof. unfold published. destruct (buf c) eqn:E; simpl; [lia | by rewrite E]. Qed.

Lemma mailboxes_sendTo ch w :
  mailboxes (sendTo ch w) =
    alter (fun c => fst (try_send c (components (d w)))) ch (mailboxes w).
Proof. reflexivity. Qed.

Lemma sendTo_lookup ch w ch' :
  single_slot w ->
  mailboxes (sendTo ch w) !! ch' =
    if decide (ch' = ch) then published (components (d w)) <$> mailboxes w !! ch'
    else mailboxes w !! ch'.
Proof.
  intros Hw. rewrite mailboxes_sendTo. destruct (decide (ch' = ch)) as [->|Hne].
  - rewrite list_lookup_alter_eq. destruct (mailboxes w !! ch) as [c|] eqn:E;
      simpl; [|done].
    f_equal. apply try_send_single_slot. by destruct (Hw ch c E).
  - rewrite list_lookup_alter_ne; [done | congruence].
Qed.

Lemma single_slot_sendTo ch w : single_slot w -> single_slot (sendTo ch w).
Proof.
  intros Hw ch' c'. rewrite sendTo_lookup by done.
  destruct (decide (ch' = ch)) as [->|]; [|apply (Hw ch' c')].
  destruct (mailboxes w !! ch) as [c|] eqn:E; [|done]. simpl. intros [= <-].
  destruct (Hw ch c E). by apply published_bound.
Qed.

Lemma rangeSubscriber_lookup chs w ch :
  single_slot w ->
  mailboxes (rangeSubscriber chs w) !! ch =
    if decide (ch ∈ chs) then published (components (d w)) <$> mailboxes w !! ch
    else mailboxes w !! ch.
Proof.
  revert w. induction chs as [|c0 chs IH]; intros w Hw; simpl.
  - destruct (decide (ch ∈ [])) as [Hin|]; [by apply elem_of_nil in Hin | done].
  - rewrite IH by by apply single_slot_sendTo. rewrite d_sendTo, sendTo_lookup by done.
    destruct (decide (ch ∈ chs)) as [Hin|Hnin], (decide (ch = c0)) as [->|Hne].
    + rewrite decide_True by apply list_elem_of_here.
      destruct (mailboxes w !! c0); [|done]. simpl. by rewrite published_idem.
    + by rewrite decide_True by by apply list_elem_of_further.
    + by rewrite decide_True by apply list_elem_of_here.
    + rewrite decide_False; [done|]. by intros [?|?]%elem_of_cons.
Qed.

Lemma length_mailboxes_rangeSubscriber chs w :
  length (mailboxes (rangeSubscriber chs w)) = length (mailboxes w).
Proof.
  revert w. induction chs as [|c0 chs IH]; intros w; simpl; [done|].
  by rewrite IH, mailboxes_sendTo, length_alter.
Qed.

Lemma single_slot_rangeSubscriber chs w :
  single_slot w -> single_slot (rangeSubscriber chs w).
Proof.
  revert w. induction chs as [|c0 chs IH]; intros w Hw; simpl; [done|].
  by apply IH, single_slot_sendTo.
Qed.

Lemma consistent_notifySubscriber w : consistent w -> consistent (notifySubscriber w).
Proof.
  intros (H1 & H2 & H3 & H4 & H5). unfold consistent, notifySubscriber.
  rewrite d_rangeSubscriber, length_mailboxes_rangeSubscriber.
  split; [by apply single_slot_rangeSubscriber | done].
Qed.

Lemma consistent_same_mailboxes w w' :
  mailboxes w' = mailboxes w ->
  subscriber (d w') = subscriber (d w) ->
  mutex (d w') = mutex (d w) ->
  notifyCh (d w') = notifyCh (d w) ->
  consistent w -> consistent w'.
Proof.
  unfold consistent, single_slot. intros -> -> -> ->. done.
Qed.

Lemma consistent_loadTopology reg w : consistent w -> consistent (fst (loadTopology reg w)).
Proof.
  intros Hw. destruct (loadTopology_components reg w) as [[_ ->]|(s & _ & ->)]; [done|].
  by apply (consistent_same_mailboxes w).
Qed.

Lemma consistent_Subscribe w w' ch :
  consistent w -> Subscribe w = Some (w', ch) -> consistent w'.
Proof.
  intros (H1 & H2 & H3 & H4 & H5). unfold Subscribe, Lock. simpl. rewrite H3. simpl.
  intros [= <- <-]. unfold consistent. simpl. split; [|split; [|split; [|split]]].
  - intros ch c Hc. apply lookup_app_Some in Hc as [Hc|[_ Hc]]; [exact (H1 _ _ Hc)|].
    destruct (ch - length (mailboxes w)); simpl in Hc; [|done].
    injection Hc as <-. simpl. lia.
  - intros ch. rewrite length_app. simpl.
    destruct (subscriber (d w)) as [|xs]; simpl.
    + intros ->%list_elem_of_singleton. lia.
    + intros [Hin| ->%list_elem_of_singleton]%elem_of_app; [|lia].
      specialize (H2 ch Hin). lia.
  - done.
  - by rewrite try_send_cap.
  - pose proof (try_send_bound (notifyCh (d w)) ()) as Hb.
    rewrite try_send_cap, H4 in Hb. by apply Hb.
Qed.

Lemma consistent_receive ch w w' : consistent w -> receive ch w = Some w' -> consistent w'.
Proof.
  intros (H1 & H2 & H3 & H4 & H5). unfold receive.
  destruct (mailboxes w !! ch) as [c|] eqn:E; simpl; [|done].
  unfold recv. destruct (buf c) as [|v rest] eqn:Eb; simpl; [done|].
  intros [= <-]. unfold consistent. simpl. rewrite length_insert.
  split; [|done]. intros ch' c'. simpl. rewrite list_lookup_insert.
  destruct (H1 ch c E) as [Hcap Hlen]. rewrite Eb in Hlen. simpl in Hlen.
  case_decide as Hd; [|apply (H1 ch' c')].
  intros [= <-]. simpl. split; [done | lia].
Qed.

Lemma act_consistent a w w' : consistent w -> act a w = Some w' -> consistent w'.
Proof.
  intros Hw. destruct a as [|ch| |reg|c reg]; simpl.
  - destruct (Subscribe w) as [[w1 ch]|] eqn:E; simpl; [|done].
    intros [= <-]. by eapply consistent_Subscribe.
  - by apply consistent_receive.
  - unfold Close. destruct (closed (d w)); [done|]. intros [= <-].
    by apply (consistent_same_mailboxes w).
  - destruct (loop w); try done. intros [= <-].
    pose proof (consistent_loadTopology reg w Hw) as Hl.
    unfold loopPrologue. destruct (loadTopology reg w) as [w1 err]. simpl in Hl.
    by apply (consistent_same_mailboxes w1).
  - destruct (loop w); try done. destruct c; simpl.
    + destruct (closed (d w)); [|done]. intros [= <-].
      by apply (consistent_same_mailboxes w).
    + pose proof (consistent_loadTopology reg w Hw) as Hl.
      destruct (loadTopology reg w) as [w1 [err|]]; simpl in Hl; intros [= <-];
        apply consistent_notifySubscriber; by eapply consistent_same_mailboxes.
    + destruct Hw as (H1 & H2 & H3 & H4 & H5). unfold recv.
      destruct (buf (notifyCh (d w))) as [|v rest] eqn:Eb; [done|].
      intros [= <-]. apply consistent_notifySubscriber.
      unfold consistent. simpl in *.
      split; [exact H1|]. repeat split; try done. lia.
Qed.

Lemma reachable_consistent w : reachable w -> consistent w.
Proof.
  induction 1 as [| a w w' _ IH Hact]; [|by eapply act_consistent].
  unfold consistent, single_slot. simpl. split; [|split; [|repeat split; lia]].
  - by intros ch c Hc.
  - by intros ch Hc%elem_of_nil.
Qed.

Lemma Subscribe_enabled w :
  mutex (d w) = false ->
  Subscribe w =
    Some (signal (Unlock (appendSubscriber (length (mailboxes w))
                            (with_d (set_mutex true)
                               (with_mailboxes (fun m => m ++ [make_chan 1]) w)))),
          length (mailboxes w)).
Proof. intros H. unfold Subscribe, Lock. simpl. by rewrite H. Qed.

Lemma loopIteration_tick_total reg w : is_Some (loopIteration CaseTick reg w).
Proof. destruct (loopIteration_tick_components reg w) as (w' & -> & _). by eexists. Qed.

(** C6. In every reachable world each registered mailbox has capacity one
    and holds at most one pending snapshot, and [Subscribe] registers a
    fresh mailbox of capacity one. Notifying never waits: it returns for
    every content of the mailboxes, puts the current snapshot into each
    registered mailbox that is empty, leaves a registered mailbox that
    already holds an unread snapshot as it is (the publish is dropped),
    and touches nothing else. *)
Theorem C6_mailboxes_single_slot_nonblocking (w : World) :
  reachable w ->
  (forall ch, ch ∈ elems (subscriber (d w)) ->
     exists c, mailboxes w !! ch = Some c /\ cap c = 1 /\ length (buf c) <= 1) /\
  (exists w' ch, Subscribe w = Some (w', ch) /\
                 mailboxes w' !! ch = Some (MkChan [] 1) /\
                 ch ∈ elems (subscriber (d w'))) /\
  (forall ch c, mailboxes w !! ch = Some c ->
     (ch ∈ elems (subscriber (d w)) -> buf c = [] ->
        mailboxes (notifySubscriber w) !! ch = Some (MkChan [components (d w)] 1)) /\
     (ch ∈ elems (subscriber (d w)) -> buf c <> [] ->
        mailboxes (notifySubscriber w) !! ch = Some c) /\
     (ch ∉ elems (subscriber (d w)) ->
        mailboxes (notifySubscriber w) !! ch = Some c)) /\
  d (notifySubscriber w) = d w /\
  (forall reg, is_Some (loopIteration CaseTick reg w)).
Proof.
  intros Hw. destruct (reachable_consistent w Hw) as (H1 & H2 & H3 & H4 & H5).
  split; [|split; [|split; [|split]]].
  - intros ch Hch. specialize (H2 ch Hch).
    destruct (lookup_lt_is_Some_2 _ _ H2) as [c Hc]. exists c. split; [done|].
    exact (H1 ch c Hc).
  - eexists _, _. split; [by apply Subscribe_enabled|]. simpl. split.
    + rewrite lookup_app_r by lia. by rewrite Nat.sub_diag.
    + destruct (subscriber (d w)); simpl; [apply list_elem_of_here|].
      apply elem_of_app. right. apply list_elem_of_here.
  - intros ch c Hc. unfold notifySubscriber. rewrite rangeSubscriber_lookup by done.
    rewrite Hc. simpl. destruct (H1 ch c Hc) as [Hcap _].
    split; [|split]; intros Hin.
    + intros Hb. rewrite decide_True by done. unfold published. by rewrite Hb, Hcap.
    + intros Hb. rewrite decide_True by done. unfold published.
      by destruct (buf c).
    + by rewrite decide_False.
  - apply d_notifySubscriber.
  - intros reg. apply loopIteration_tick_total.
Qed.

Lemma C6_mailboxes_witness :
  reachable w_running /\
  exists c, mailboxes w_running !! 0 = Some c /\ cap c = 1 /\ length (buf c) <= 1.
Proof.
  pose proof reachable_w_running as Hr.
  split; [exact Hr|].
  apply (proj1 (C6_mailboxes_single_slot_nonblocking w_running Hr) 0).
  apply list_elem_of_here.
Defined.

(** ** The control loop *)

Lemma sendTo_with_d f ch w :
  components (f (d w)) = components (d w) ->
  sendTo ch (with_d f w) = with_d f (sendTo ch w).
Proof. intros H. unfold sendTo, with_d, with_mailboxes. simpl. by rewrite H. Qed.

Lemma rangeSubscriber_with_d f chs w :
  components (f (d w)) = components (d w) ->
  rangeSubscriber chs (with_d f w) = with_d f (rangeSubscriber chs w).
Proof.
  revert w. induction chs as [|ch chs IH]; intros w H; simpl; [done|].
  rewrite sendTo_with_d by done. by apply IH.
Qed.

Lemma notifySubscriber_set_notifyCh c w :
  notifySubscriber (with_d (set_notifyCh c) w) = with_d (set_notifyCh c) (notifySubscriber w).
Proof. unfold notifySubscriber. simpl. by apply rangeSubscriber_with_d. Qed.

Lemma notifySubscriber_log e w : notifySubscriber (log e w) = log e (notifySubscriber w).
Proof.
  unfold notifySubscriber. simpl. generalize (elems (subscriber (d w))). intros chs.
  revert w. induction chs as [|ch chs IH]; intros w; simpl; [done|]. by rewrite <- IH.
Qed.

Lemma all_notified_notifySubscriber w : consistent w -> all_notified (notifySubscriber w).
Proof.
  intros (H1 & H2 & _) ch. rewrite d_notifySubscriber. intros Hch.
  destruct (lookup_lt_is_Some_2 _ _ (H2 ch Hch)) as [c Hc].
  unfold notifySubscriber. rewrite rangeSubscriber_lookup, decide_True, Hc by done.
  eexists. split; [reflexivity|]. unfold published. by destruct (buf c) eqn:E; simpl; rewrite ?E.
Qed.

Lemma mailboxes_loopPrologue reg w :
  mailboxes (loopPrologue reg w) = mailboxes w /\
  subscriber (d (loopPrologue reg w)) = subscriber (d w) /\
  notifyCh (d (loopPrologue reg w)) = notifyCh (d w).
Proof.
  unfold loopPrologue, loadTopology. by destruct (getAllScrapeTargets reg).
Qed.

Lemma loopIteration_tick_unfold reg w :
  loopIteration CaseTick reg w =
    Some (notifySubscriber
            (log (match snd (loadTopology reg w) with
                  | Some err => ErrorLoadTopologyFailed err
                  | None => DebugLoadTopologySuccess
                              (components (d (fst (loadTopology reg w))))
                  end)
               (fst (loadTopology reg w)))).
Proof. unfold loopIteration. by destruct (loadTopology reg w) as [w1 [err|]]. Qed.

(** A caller that registers before the loop has started leaves a pending
    signal behind. *)
Lemma act_signal_before_start a w w' :
  consistent w -> act a w = Some w' ->
  (loop w = NotStarted -> elems (subscriber (d w)) <> [] -> buf (notifyCh (d w)) = [()]) ->
  loop w' = NotStarted -> elems (subscriber (d w')) <> [] -> buf (notifyCh (d w')) = [()].
Proof.
  intros Hc Hact IH. pose proof (act_consistent a w w' Hc Hact) as (_ & _ & _ & Hcap & Hlen).
  destruct a as [|ch| |reg|c reg]; cbn [act] in Hact.
  - destruct Hc as (_ & _ & Hm & Hcap0 & Hlen0). rewrite Subscribe_enabled in Hact by done.
    simpl in Hact. injection Hact as <-. intros _ _. simpl. unfold try_send.
    destruct (notifyCh (d w)) as [[|[] b] n]; simpl in *; subst n.
    + by rewrite decide_True by lia.
    + case_decide; simpl; [lia|]. destruct b; simpl in *; [done | lia].
  - pose proof (receive_d _ _ _ Hact) as Hd. rewrite Hd.
    unfold receive in Hact. destruct (mailboxes w !! ch); simpl in Hact; [|done].
    destruct (recv c); simpl in Hact; [|done]. injection Hact as <-. exact IH.
  - unfold Close in Hact. destruct (closed (d w)); [done|]. injection Hact as <-. exact IH.
  - destruct (loop w); try done. by injection Hact as <-.
  - destruct (loop w) eqn:El; try done. intros Hl. exfalso.
    destruct c.
    + simpl in Hact. destruct (closed (d w)); [|done]. by injection Hact as <-.
    + rewrite loopIteration_tick_unfold in Hact. injection Hact as <-.
      rewrite notifySubscriber_log in Hl. simpl in Hl. unfold notifySubscriber in Hl.
      rewrite loop_rangeSubscriber in Hl.
      destruct (loadTopology_components reg w) as [[_ E]|(s & _ & E)];
        rewrite E in Hl; simpl in Hl; congruence.
    + simpl in Hact. destruct (recv (notifyCh (d w))) as [[? c]|]; [|done].
      injection Hact as <-. unfold notifySubscriber in Hl. rewrite loop_rangeSubscriber in Hl. simpl in Hl.
      congruence.
Qed.

Lemma reachable_signal_before_start w :
  reachable w -> loop w = NotStarted -> elems (subscriber (d w)) <> [] ->
  buf (notifyCh (d w)) = [()].
Proof.
  induction 1 as [| a w w' Hw IH Hact]; [done|].
  eapply act_signal_before_start; eauto using reachable_consistent.
Qed.

(** C3, as stated, fails: a subscriber registered before [Start], the
    first aggregation failed and the stored snapshot is still nil; the
    registries are healthy again when the loop receives the refresh signal,
    yet the snapshot stays nil: no aggregation has run. *)
Lemma C3_signal_runs_no_aggregation :
  ~ (forall reg w w',
       reachable w -> loopIteration CaseNotify reg w = Some w' ->
       components (d w') = components (d (fst (loadTopology reg w)))).
Proof.
  intros H.
  pose proof (H reg_scenario w_first_load_failed
                (default w0 (loopIteration CaseNotify reg_scenario w_first_load_failed))
                reachable_w_first_load_failed) as H'.
  vm_compute in H'. specialize (H' eq_refl). discriminate.
Qed.

(** C3, amended. [Subscribe] always returns, registers its mailbox and
    leaves exactly one refresh signal pending: the signal is stored when
    none is pending and dropped, leaving the channel as it is, when one is.
    When the loop receives the signal it runs no aggregation: it consumes
    the signal and notifies, so the stored snapshot and the log are the
    ones from before and the mailboxes are those of a Notifying phase on
    the snapshot already stored. *)
Theorem C3_subscribe_signals_notify_only (w : World) :
  reachable w ->
  (exists w' ch,
     Subscribe w = Some (w', ch) /\
     buf (notifyCh (d w')) = [()] /\
     (buf (notifyCh (d w)) <> [] -> notifyCh (d w') = notifyCh (d w))) /\
  (forall reg w',
     loopIteration CaseNotify reg w = Some w' ->
     buf (notifyCh (d w)) = [()] /\
     w' = with_d (set_notifyCh (MkChan [] 1)) (notifySubscriber w) /\
     components (d w') = components (d w) /\
     logs w' = logs w /\
     mailboxes w' = mailboxes (notifySubscriber w)) /\
  (buf (notifyCh (d w)) = [()] -> forall reg, is_Some (loopIteration CaseNotify reg w)).
Proof.
  intros Hw. destruct (reachable_consistent w Hw) as (H1 & H2 & H3 & H4 & H5).
  split; [|split].
  - eexists _, _. split; [by apply Subscribe_enabled|]. simpl. unfold try_send.
    destruct (notifyCh (d w)) as [[|[] b] n]; simpl in *; subst n.
    + by rewrite decide_True by lia.
    + case_decide; simpl; [lia|]. destruct b; simpl in *; [done | lia].
  - intros reg w'. simpl. unfold recv.
    destruct (notifyCh (d w)) as [[|[] b] n] eqn:E; simpl in *; [done|]. subst n.
    intros [= <-]. destruct b; simpl in *; [|lia].
    rewrite notifySubscriber_set_notifyCh. simpl. rewrite d_notifySubscriber.
    repeat split; try done. apply logs_rangeSubscriber.
  - intros Hb reg. simpl. unfold recv. rewrite Hb. by eexists.
Qed.

Lemma C3_subscribe_signals_witness :
  reachable w_running /\
  exists w' ch, Subscribe w_running = Some (w', ch) /\ buf (notifyCh (d w')) = [()].
Proof.
  pose proof reachable_w_running as Hr.
  split; [exact Hr|].
  destruct (C3_subscribe_signals_notify_only w_running Hr) as ((w' & ch & Hs & Hb & _) & _).
  exists w', ch. split; [exact Hs | exact Hb].
Defined.

(** C4, as stated, fails: with one subscriber registered before [Start],
    the world right after the first aggregation has that subscriber's
    mailbox still empty, which no Notifying phase leaves behind. *)
Lemma C4_first_aggregation_without_notify :
  ~ (forall a w w',
       reachable w -> runs_aggregation a = true -> act a w = Some w' ->
       all_notified w').
Proof.
  intros H.
  pose proof (H (ActStart reg_mixed) w_subscribed w_running reachable_w_subscribed
                eq_refl eq_refl 0) as H'.
  destruct H' as (c & Hc & Hb); [apply list_elem_of_here|].
  vm_compute in Hc. injection Hc as <-. by apply Hb.
Qed.

(** The same start followed by [Close]: when the first [select] takes the
    closed case the loop returns and the mailbox has never been written. *)
Example first_aggregation_then_close :
  exists w, run [ActSubscribe; ActStart reg_mixed; ActClose;
                 ActSelect CaseClosed reg_mixed] w0 = Some w /\
            loop w = Returned /\
            is_nil (components (d w)) = false /\
            mailboxes w = [MkChan [] 1].
Proof. eexists. split; [reflexivity|]. by repeat split. Qed.

(** C4, amended. An aggregation run on a timer tick is followed by a
    Notifying phase whether it succeeded or failed: afterwards every
    registered mailbox holds a snapshot, and after a failed cycle the
    mailboxes are those of a Notifying phase on the retained snapshot. The
    first aggregation, run when the loop starts, publishes nothing: the
    mailboxes are left as they were. A subscriber registered before the
    start has left a refresh signal pending, so the signal case of the
    first [select] is ready and taking it notifies. *)
Theorem C4_tick_cycle_always_notifies (w : World) (reg : Registry) :
  reachable w ->
  (exists w',
     loopIteration CaseTick reg w = Some w' /\
     all_notified w' /\
     mailboxes w' = mailboxes (notifySubscriber (fst (loadTopology reg w))) /\
     (adapter_fails reg ->
        components (d w') = components (d w) /\
        mailboxes w' = mailboxes (notifySubscriber w))) /\
  mailboxes (loopPrologue reg w) = mailboxes w /\
  (loop w = NotStarted -> elems (subscriber (d w)) <> [] ->
     forall reg',
       exists w', loopIteration CaseNotify reg' (with_loop Selecting (loopPrologue reg w))
                    = Some w' /\
                  all_notified w').
Proof.
  intros Hw. pose proof (reachable_consistent w Hw) as Hc.
  split; [|split].
  - rewrite loopIteration_tick_unfold. eexists. split; [reflexivity|].
    rewrite notifySubscriber_log.
    pose proof (consistent_loadTopology reg w Hc) as Hl.
    split; [|split].
    + intros ch Hch. apply (all_notified_notifySubscriber _ Hl ch Hch).
    + reflexivity.
    + intros Hf. apply getAllScrapeTargets_fails in Hf.
      destruct (loadTopology_err reg w Hf) as (err & _ & E). rewrite E. simpl.
      by rewrite d_notifySubscriber.
  - apply mailboxes_loopPrologue.
  - intros Hl Hs reg'.
    pose proof (reachable_signal_before_start w Hw Hl Hs) as Hb.
    assert (Hact : act (ActStart reg) w = Some (with_loop Selecting (loopPrologue reg w)))
      by (simpl; by rewrite Hl).
    pose proof (act_consistent _ _ _ Hc Hact) as Hc'.
    destruct (mailboxes_loopPrologue reg w) as (_ & _ & Hn).
    simpl. unfold recv. rewrite Hn, Hb. eexists. split; [reflexivity|].
    rewrite notifySubscriber_set_notifyCh.
    intros ch Hch. apply (all_notified_notifySubscriber _ Hc' ch Hch).
Qed.

Lemma C4_tick_cycle_witness :
  reachable w_running /\
  exists w', loopIteration CaseTick reg_pd_fails w_running = Some w' /\ all_notified w'.
Proof.
  pose proof reachable_w_running as Hr.
  split; [exact Hr|].
  destruct (C4_tick_cycle_always_notifies w_running reg_pd_fails Hr)
    as ((w' & Hw' & Hall & _) & _).
  exists w'. split; [exact Hw' | exact Hall].
Defined.

(** ** Construction *)

(** C7. With no PD endpoint the constructor fails before any client
    constructor is called. With at least one endpoint it builds the HTTP
    client for the first endpoint, then the etcd client for all endpoints:
    when both client constructors succeed it returns a discoverer holding
    the two clients, with no subscriber, a nil snapshot, an empty
    single-slot refresh signal and the mutex free; when the HTTP client
    cannot be built it fails with that error without building the etcd
    client; when the etcd client cannot be built it fails with that
    error. *)
Theorem C7_construction
    (GetHTTPScheme : config.Config -> string)
    (GetTLSConfig : config.Security -> option tls.Config)
    (NewAPIClient : httpclient.APIClientConfig -> result pdclient.APIClient)
    (NewEtcdClient : pdclient.EtcdClientConfig -> result pdclient.EtcdClient)
    (cfg : config.Config) :
  let New := NewTopologyDiscoverer GetHTTPScheme GetTLSConfig NewAPIClient NewEtcdClient in
  let apiCfg := fun endpoint0 =>
    {| httpclient.Endpoint := GetHTTPScheme cfg +:+ "://" +:+ endpoint0;
       httpclient.TLS := GetTLSConfig (config.Security_ cfg) |} in
  let etcdCfg :=
    {| pdclient.Endpoints := config.PD_Endpoints cfg;
       pdclient.TLS := GetTLSConfig (config.Security_ cfg) |} in
  (config.PD_Endpoints cfg = [] ->
     exists err, New cfg [] = ([], Err err)) /\
  (forall endpoint0 rest, config.PD_Endpoints cfg = endpoint0 :: rest ->
     (forall pdCli etcdCli,
        NewAPIClient (apiCfg endpoint0) = Ok pdCli ->
        NewEtcdClient etcdCfg = Ok etcdCli ->
        New cfg [] =
          ([CallNewAPIClient (apiCfg endpoint0); CallNewEtcdClient etcdCfg],
           Ok {| mutex := false; pdCli := pdCli; etcdCli := etcdCli;
                 subscriber := Nil; components := Nil;
                 notifyCh := MkChan [] 1; closed := false |})) /\
     (forall err,
        NewAPIClient (apiCfg endpoint0) = Err err ->
        New cfg [] = ([CallNewAPIClient (apiCfg endpoint0)], Err err)) /\
     (forall pdCli err,
        NewAPIClient (apiCfg endpoint0) = Ok pdCli ->
        NewEtcdClient etcdCfg = Err err ->
        New cfg [] =
          ([CallNewAPIClient (apiCfg endpoint0); CallNewEtcdClient etcdCfg], Err err))).
Proof.
  intros New apiCfg etcdCfg. subst New apiCfg etcdCfg. cbv beta.
  unfold NewTopologyDiscoverer. split.
  - intros ->. by eexists.
  - intros endpoint0 rest E. rewrite E.
    unfold ctor_bind, callNewAPIClient, callNewEtcdClient, ctor_ret. simpl.
    split; [|split].
    + intros pdCli etcdCli -> ->. reflexivity.
    + intros err ->. reflexivity.
    + intros pdCli err -> ->. reflexivity.
Qed.

Lemma C7_construction_witness :
  NewTopologyDiscoverer plain_scheme no_tls accept_api accept_etcd cfg0 [] =
    ([CallNewAPIClient {| httpclient.Endpoint := "http://10.0.0.2:2379";
                          httpclient.TLS := None |};
      CallNewEtcdClient {| pdclient.Endpoints := ["10.0.0.2:2379"];
                           pdclient.TLS := None |}],
     Ok (newDiscoverer pd0 etcd0)) /\
  exists err,
    NewTopologyDiscoverer plain_scheme no_tls accept_api accept_etcd cfg_no_endpoint [] =
      ([], Err err).
Proof.
  split.
  - exact (proj1 (proj2 (C7_construction plain_scheme no_tls accept_api accept_etcd cfg0)
                    "10.0.0.2:2379" [] eq_refl) pd0 etcd0 eq_refl eq_refl).
  - exact (proj1 (C7_construction plain_scheme no_tls accept_api accept_etcd cfg_no_endpoint)
             eq_refl).
Defined.

(** ** Goroutines interleaved *)

Module InterleavingFacts.
Import Interleaving.

(** A call of [Subscribe] that runs without interruption does what the
    function [Subscribe] does. *)
Lemma Subscribe_alone w pc :
  mutex (d w) = false ->
  exists w' ch,
    Subscribe w = Some (w', ch) /\
    alone (Caller 0) 5 {| world := w; notifier := pc; callers := [AtMake] |} =
      {| world := w'; notifier := pc; callers := [AtReturn ch] |}.
Proof.
  intros Hm. eexists _, _. split; [by apply Subscribe_enabled|].
  unfold alone, step. simpl. unfold Lock. simpl. by rewrite Hm.
Qed.

Lemma notify_sends_alone chs w cs :
  alone LoopGoroutine (S (length chs)) {| world := w; notifier := AtSend chs; callers := cs |} =
    {| world := rangeSubscriber chs w; notifier := AtDone; callers := cs |}.
Proof.
  revert w. induction chs as [|ch chs IH]; intros w; [reflexivity|].
  cbn [length alone]. cbn [step stepNotify mbind option_bind notifier world fst snd callers].
  apply IH.
Qed.

(** A call of [notifySubscriber] that runs without interruption does what
    the function [notifySubscriber] does. *)
Lemma notifySubscriber_alone w cs :
  alone LoopGoroutine (2 + length (elems (subscriber (d w))))
        {| world := w; notifier := AtRange; callers := cs |} =
    {| world := notifySubscriber w; notifier := AtDone; callers := cs |}.
Proof.
  cbn [Nat.add alone]. cbn [step stepNotify mbind option_bind notifier world fst snd callers].
  apply notify_sends_alone.
Qed.

(** The loop goroutine never blocks inside [notifySubscriber], never takes
    the mutex and never changes it. *)
Lemma notify_step_enabled c :
  notifier c <> AtDone ->
  exists c', step LoopGoroutine c = Some c' /\
             mutex (d (world c')) = mutex (d (world c)) /\
             callers c' = callers c.
Proof.
  intros H. unfold step. destruct (notifier c) as [|[|ch chs]|]; simpl; [..|done];
    by eexists.
Qed.

(** A caller inside [Subscribe] can wait only at [d.Lock()], and only
    while the mutex is held. *)
Lemma subscribe_step_blocked c i pc :
  callers c !! i = Some pc ->
  step (Caller i) c = None ->
  (exists ch, pc = AtReturn ch) \/
  (exists ch, pc = AtLock ch) /\ mutex (d (world c)) = true.
Proof.
  intros Hpc. unfold step. rewrite Hpc. simpl.
  destruct pc as [|ch|ch|ch|ch|ch]; simpl; try done.
  - unfold Lock. destruct (mutex (d (world c))); simpl; [|done]. intros _. right. eauto.
  - intros _. left. eauto.
Qed.

(** C9. The serialisation the claim demands does not hold of the code:
    from the world [w_running], with the loop goroutine about to run
    [notifySubscriber] and one caller entering [Subscribe], the schedule
    that lets the caller make its mailbox and take the mutex reaches a
    configuration in which the caller holds the mutex and is about to
    write [d.subscriber], while the loop goroutine, which holds no mutex,
    is ready to read [d.subscriber]: both steps are enabled, nothing
    orders them, and the locking discipline is broken. *)
Theorem C9_notify_reads_subscriber_unlocked :
  schedule race_schedule (start 1 w_running) = Some c_race /\
  mutex (d (world c_race)) = true /\
  holds_mutex (Caller 0) c_race = true /\
  writes_subscriber (Caller 0) c_race = true /\
  reads_subscriber LoopGoroutine c_race = true /\
  holds_mutex LoopGoroutine c_race = false /\
  is_Some (step (Caller 0) c_race) /\
  is_Some (step LoopGoroutine c_race) /\
  unordered_access c_race /\
  ~ lock_discipline c_race.
Proof.
  assert (H1 : is_Some (step (Caller 0) c_race)) by (vm_compute; by eexists).
  assert (H2 : is_Some (step LoopGoroutine c_race)) by (vm_compute; by eexists).
  split; [reflexivity|]. do 5 (split; [reflexivity|]).
  split; [exact H1|]. split; [exact H2|]. split.
  - exists (Caller 0), LoopGoroutine. split; [discriminate|].
    split; [reflexivity|]. split; [by left|]. by split.
  - intros H. specialize (H LoopGoroutine (or_introl eq_refl)). discriminate.
Qed.

End InterleavingFacts.

(** * Further properties of the discoverer *)

(** ** Errors and sizes of an aggregation *)

(** X1. The aggregation reports the error of the first adapter that fails, in
    the order TiDB, PD, stores; what the later registries would have
    answered does not matter. *)
Theorem getAllScrapeTargets_first_error (reg : Registry) :
  (forall e, GetTiDBInstances reg = Err e -> getAllScrapeTargets reg = Err e) /\
  (forall l e, GetTiDBInstances reg = Ok l -> GetPDInstances reg = Err e ->
               getAllScrapeTargets reg = Err e) /\
  (forall l1 l2 e, GetTiDBInstances reg = Ok l1 -> GetPDInstances reg = Ok l2 ->
                   GetStoreInstances reg = Err e -> getAllScrapeTargets reg = Err e).
Proof.
  unfold getAllScrapeTargets. cbn [rangeFns]. split; [|split].
  - intros e H. unfold getTiDBComponents. by rewrite H.
  - intros l e H1 H2. rewrite (getTiDBComponents_ok reg l H1).
    unfold getPDComponents. by rewrite H2.
  - intros l1 l2 e H1 H2 H3.
    rewrite (getTiDBComponents_ok reg l1 H1), (getPDComponents_ok reg l2 H2).
    unfold getStoreComponents. by rewrite H3.
Qed.

Lemma getAllScrapeTargets_first_error_witness :
  getAllScrapeTargets reg_etcd_fails = Err (Error "etcd: request timed out") /\
  getAllScrapeTargets reg_pd_fails = Err (Error "context deadline exceeded").
Proof.
  split.
  - exact (proj1 (getAllScrapeTargets_first_error reg_etcd_fails) _ eq_refl).
  - exact (proj1 (proj2 (getAllScrapeTargets_first_error reg_pd_fails)) _ _ eq_refl eq_refl).
Defined.

Lemma Forall_filter_id {A} (P : A -> Prop) `{!forall x, Decision (P x)} (l : list A) :
  Forall P l -> filter P l = l.
Proof.
  induction 1 as [|x l Hx _ IH]; [done|]. rewrite filter_cons_True by done. by rewrite IH.
Qed.

(** X2. A successful aggregation returns at most one record per instance the
    registries list, and exactly one per instance, in the registries'
    order, when every instance is up. *)
Theorem snapshot_length_bound (reg : Registry) (tidbs : list topo.TiDBInfo.t)
    (pds : list topo.PDInfo.t) (tikvs tiflashes : list topo.StoreInfo.t) :
  GetTiDBInstances reg = Ok tidbs ->
  GetPDInstances reg = Ok pds ->
  GetStoreInstances reg = Ok (tikvs, tiflashes) ->
  exists s,
    getAllScrapeTargets reg = Ok s /\
    len s <= length tidbs + length pds + length tikvs + length tiflashes /\
    (Forall up_tidb tidbs -> Forall up_pd pds ->
     Forall up_store tikvs -> Forall up_store tiflashes ->
     elems s = (tidbRecord <$> tidbs) ++ (pdRecord <$> pds) ++
               (storeRecord ComponentTiKV <$> tikvs) ++
               (storeRecord ComponentTiFlash <$> tiflashes) /\
     len s = length tidbs + length pds + length tikvs + length tiflashes).
Proof.
  intros H1 H2 H3. eexists. split; [by apply getAllScrapeTargets_ok|].
  unfold len, tiered_snapshot. simpl. split.
  - rewrite !length_app, !length_fmap.
    pose proof (length_filter up_tidb tidbs). pose proof (length_filter up_pd pds).
    pose proof (length_filter up_store tikvs). pose proof (length_filter up_store tiflashes).
    lia.
  - intros F1 F2 F3 F4. rewrite !Forall_filter_id by done. split; [done|].
    rewrite !length_app, !length_fmap. lia.
Qed.

Lemma snapshot_length_bound_witness :
  exists s, getAllScrapeTargets reg_mixed = Ok s /\ len s <= 1 + 1 + 1 + 1.
Proof.
  destruct (snapshot_length_bound reg_mixed [tidb_down; tidb_up] [pd_up; pd_offline]
              [tikv_tombstone; tikv_up] [tiflash_up; tiflash_unreachable]
              eq_refl eq_refl eq_refl) as (s & Hs & _ & _).
  exists s. split; [exact Hs|].
  injection Hs as <-. vm_compute. repeat constructor.
Defined.

(** ** The subscriber registry *)

Lemma elems_append {A} (s : slice A) (xs : list A) : elems (append s xs) = elems s ++ xs.
Proof. by destruct s, xs. Qed.

Lemma Subscribe_effect w w' ch :
  Subscribe w = Some (w', ch) ->
  mutex (d w) = false /\
  ch = length (mailboxes w) /\
  mailboxes w' = mailboxes w ++ [MkChan [] 1] /\
  elems (subscriber (d w')) = elems (subscriber (d w)) ++ [ch] /\
  components (d w') = components (d w) /\
  closed (d w') = closed (d w) /\
  logs w' = logs w /\ loop w' = loop w.
Proof.
  unfold Subscribe, Lock. simpl. destruct (mutex (d w)); simpl; [done|].
  intros [= <- <-]. simpl. by rewrite elems_append.
Qed.

Lemma length_mailboxes_notifySubscriber w :
  length (mailboxes (notifySubscriber w)) = length (mailboxes w).
Proof. apply length_mailboxes_rangeSubscriber. Qed.

(** What an action of the loop goroutine, a read or a [Close] leaves
    alone: the subscriber list and the number of mailboxes. *)
Lemma act_registry a w w' :
  act a w = Some w' ->
  (a = ActSubscribe /\
   elems (subscriber (d w')) = elems (subscriber (d w)) ++ [length (mailboxes w)] /\
   length (mailboxes w') = S (length (mailboxes w))) \/
  (a <> ActSubscribe /\
   subscriber (d w') = subscriber (d w) /\
   length (mailboxes w') = length (mailboxes w)).
Proof.
  destruct a as [|ch| |reg|c reg]; cbn [act].
  - destruct (Subscribe w) as [[w1 ch]|] eqn:E; simpl; [|done]. intros [= <-].
    destruct (Subscribe_effect _ _ _ E) as (_ & -> & Hm & Hs & _).
    left. split; [done|]. split; [done|]. rewrite Hm, length_app. simpl. lia.
  - intros H. right. split; [done|]. rewrite (receive_d _ _ _ H). split; [done|].
    unfold receive in H. destruct (mailboxes w !! ch); simpl in H; [|done].
    destruct (recv c); simpl in H; [|done]. injection H as <-. simpl.
    by rewrite length_insert.
  - unfold Close. destruct (closed (d w)); [done|]. intros [= <-]. by right.
  - destruct (loop w); try done. intros [= <-]. right. split; [done|].
    destruct (mailboxes_loopPrologue reg w) as (Hm & Hs & _). simpl. by rewrite Hm, Hs.
  - destruct (loop w); try done. intros H. right. split; [done|]. destruct c.
    + simpl in H. destruct (closed (d w)); [|done]. by injection H as <-.
    + rewrite loopIteration_tick_unfold in H. injection H as <-.
      rewrite d_notifySubscriber, length_mailboxes_notifySubscriber. simpl.
      by destruct (loadTopology_components reg w) as [[_ ->]|(s & _ & ->)].
    + simpl in H. destruct (recv (notifyCh (d w))) as [[? c]|]; [|done].
      injection H as <-. by rewrite d_notifySubscriber, length_mailboxes_notifySubscriber.
Qed.

(** X3. Registration is append-only: whatever the system does, the subscriber
    list of before is a prefix of the subscriber list of after and no
    mailbox disappears; nothing ever unsubscribes. *)
Theorem subscriber_append_only (acts : list action) (w w' : World) :
  run acts w = Some w' ->
  elems (subscriber (d w)) `prefix_of` elems (subscriber (d w')) /\
  length (mailboxes w) <= length (mailboxes w').
Proof.
  revert w. induction acts as [|a acts IH]; intros w; simpl.
  - by intros [= <-].
  - destruct (act a w) as [w1|] eqn:E; simpl; [|done]. intros H.
    destruct (IH w1 H) as [Hp Hl].
    destruct (act_registry a w w1 E) as [(_ & Hs & Hm)|(_ & Hs & Hm)].
    + split; [|lia]. etrans; [|exact Hp]. rewrite Hs. by apply prefix_app_r.
    + rewrite Hs in Hp. split; [done | lia].
Qed.

Lemma subscriber_append_only_witness :
  elems (subscriber (d w_subscribed)) `prefix_of` elems (subscriber (d w_notified)).
Proof.
  apply (subscriber_append_only [ActStart reg_mixed; ActSelect CaseTick reg_mixed]
           w_subscribed w_notified).
  reflexivity.
Defined.

(** X4. Every subscriber owns a mailbox of its own: in every reachable world
    the registered references are exactly the references of the mailboxes
    made so far, each listed once, and [Subscribe] hands out a reference
    that no earlier subscriber holds. *)
Theorem subscribers_own_distinct_mailboxes (w : World) :
  reachable w ->
  elems (subscriber (d w)) = seq 0 (length (mailboxes w)) /\
  NoDup (elems (subscriber (d w))) /\
  (forall w' ch, Subscribe w = Some (w', ch) -> ch ∉ elems (subscriber (d w))).
Proof.
  intros Hw.
  assert (Hseq : elems (subscriber (d w)) = seq 0 (length (mailboxes w))).
  { induction Hw as [| a w w' Hw IH Hact]; [done|].
    destruct (act_registry a w w' Hact) as [(_ & Hs & Hm)|(_ & Hs & Hm)].
    - rewrite Hs, Hm, IH. by rewrite seq_S.
    - by rewrite Hs, Hm. }
  split; [exact Hseq|]. split.
  - rewrite Hseq. apply NoDup_seq.
  - intros w' ch Hs. destruct (Subscribe_effect _ _ _ Hs) as (_ & -> & _).
    rewrite Hseq, elem_of_seq. lia.
Qed.

Lemma subscribers_own_distinct_mailboxes_witness :
  reachable w_running /\ NoDup (elems (subscriber (d w_running))).
Proof.
  split; [exact reachable_w_running|].
  exact (proj1 (proj2 (subscribers_own_distinct_mailboxes w_running reachable_w_running))).
Defined.

(** ** What subscribers can observe *)

Lemma sendTo_pending ch w ch' c' :
  mailboxes (sendTo ch w) !! ch' = Some c' ->
  exists c, mailboxes w !! ch' = Some c /\
            forall v, v ∈ buf c' -> v ∈ buf c \/ v = components (d w).
Proof.
  rewrite mailboxes_sendTo. destruct (decide (ch' = ch)) as [->|Hne].
  - rewrite list_lookup_alter_eq. destruct (mailboxes w !! ch) as [c|]; simpl; [|done].
    intros [= <-]. exists c. split; [done|]. intros v. unfold try_send.
    case_decide; simpl; [|by left].
    intros [?| ->%list_elem_of_singleton]%elem_of_app; [by left | by right].
  - rewrite list_lookup_alter_ne by congruence. intros H. exists c'. split; [done|].
    intros v. by left.
Qed.

Lemma rangeSubscriber_pending chs w ch' c' :
  mailboxes (rangeSubscriber chs w) !! ch' = Some c' ->
  exists c, mailboxes w !! ch' = Some c /\
            forall v, v ∈ buf c' -> v ∈ buf c \/ v = components (d w).
Proof.
  revert w. induction chs as [|ch chs IH]; intros w; simpl.
  - intros H. exists c'. split; [done|]. intros v. by left.
  - intros H. destruct (IH _ H) as (c1 & H1 & Hv1).
    destruct (sendTo_pending _ _ _ _ H1) as (c & Hc & Hv).
    exists c. split; [done|]. intros v Hin. rewrite d_sendTo in Hv1.
    destruct (Hv1 v Hin) as [Hin1|]; [by apply Hv | by right].
Qed.

Lemma mailboxes_complete_notifySubscriber w :
  snapshot_complete w -> mailboxes_complete w -> mailboxes_complete (notifySubscriber w).
Proof.
  intros Hs Hm ch c' v Hc' Hv.
  destruct (rangeSubscriber_pending _ _ _ _ Hc') as (c & Hc & Hin).
  destruct (Hin v Hv) as [Hold| ->]; [by eapply Hm | exact Hs].
Qed.

Lemma act_mailboxes_complete a w w' :
  act a w = Some w' ->
  snapshot_complete w -> mailboxes_complete w -> mailboxes_complete w'.
Proof.
  intros Hact Hs Hm. destruct a as [|ch| |reg|c reg]; cbn [act] in Hact.
  - destruct (Subscribe w) as [[w1 ch]|] eqn:E; simpl in Hact; [|done].
    injection Hact as <-. destruct (Subscribe_effect _ _ _ E) as (_ & _ & Hmb & _).
    intros ch' c v. rewrite Hmb. intros [Hc|[_ Hc]]%lookup_app_Some; [by eapply Hm|].
    destruct (ch' - length (mailboxes w)); simpl in Hc; [|done].
    injection Hc as <-. simpl. by intros ?%elem_of_nil.
  - unfold receive in Hact. destruct (mailboxes w !! ch) as [c|] eqn:E; simpl in Hact; [|done].
    unfold recv in Hact. destruct (buf c) as [|v0 rest] eqn:Eb; simpl in Hact; [done|].
    injection Hact as <-. intros ch' c' v. simpl. rewrite list_lookup_insert.
    case_decide as Hd; [|by eapply Hm]. intros [= <-]. simpl. intros Hv.
    apply (Hm ch c v E). rewrite Eb. by apply list_elem_of_further.
  - unfold Close in Hact. destruct (closed (d w)); [done|]. by injection Hact as <-.
  - destruct (loop w); try done. injection Hact as <-.
    destruct (mailboxes_loopPrologue reg w) as (Hmb & _).
    intros ch c v. simpl. rewrite Hmb. by eapply Hm.
  - destruct (loop w); try done. destruct c.
    + simpl in Hact. destruct (closed (d w)); [|done]. by injection Hact as <-.
    + rewrite loopIteration_tick_unfold in Hact. injection Hact as <-.
      rewrite notifySubscriber_log.
      pose proof (snapshot_complete_load reg w Hs) as Hs1.
      assert (Hm1 : mailboxes_complete (fst (loadTopology reg w))).
      { by destruct (loadTopology_components reg w) as [[_ ->]|(s & _ & ->)]. }
      exact (mailboxes_complete_notifySubscriber _ Hs1 Hm1).
    + simpl in Hact. destruct (recv (notifyCh (d w))) as [[? c]|]; [|done].
      injection Hact as <-. rewrite notifySubscriber_set_notifyCh.
      exact (mailboxes_complete_notifySubscriber _ Hs Hm).
Qed.

Lemma reachable_mailboxes_complete w : reachable w -> mailboxes_complete w.
Proof.
  induction 1 as [| a w w' Hw IH Hact].
  - by intros ch c v Hc.
  - eapply act_mailboxes_complete; eauto using reachable_snapshot_complete.
Qed.



Lemma complete_value_records v c :
  complete_value v -> c ∈ elems v ->
  tier_name (Name c) /\ (Name c = ComponentPD -> StatusPort c = Port c).
Proof.
  intros [->|(reg & _ & Hs)] Hc; [by apply elem_of_nil in Hc|].
  unfold tier_name.
  destruct (getAllScrapeTargets_from_up reg v c Hs Hc)
    as [(l & i & _ & _ & _ & ->)|[(l & i & _ & _ & _ & ->)|
        [(kv & fl & i & _ & _ & _ & ->)|(kv & fl & i & _ & _ & _ & ->)]]]; simpl.
  - split; [by left | done].
  - split; [by right; left | done].
  - split; [by right; right; left | done].
  - split; [by right; right; right | done].
Qed.

(** X6. Every record a consumer can see, in the stored snapshot or pending in
    a mailbox of a reachable world, carries one of the four tier names,
    and a record named [pd] has its status port equal to its port. *)
Theorem visible_records_well_formed (w : World) (v : slice Component) (c : Component) :
  reachable w ->
  v = components (d w) \/ (exists ch m, mailboxes w !! ch = Some m /\ v ∈ buf m) ->
  c ∈ elems v ->
  (Name c = "tidb" \/ Name c = "pd" \/ Name c = "tikv" \/ Name c = "tiflash") /\
  (Name c = "pd" -> StatusPort c = Port c).
Proof.
  intros Hw Hv Hc. apply (complete_value_records v c); [|done].
  destruct Hv as [->|(ch & m & Hm & Hin)].
  - exact (reachable_snapshot_complete w Hw).
  - exact (reachable_mailboxes_complete w Hw ch m v Hm Hin).
Qed.

Lemma visible_records_well_formed_witness :
  reachable w_running /\
  pdRecord pd_up ∈ elems (components (d w_running)) /\
  StatusPort (pdRecord pd_up) = Port (pdRecord pd_up).
Proof.
  split; [exact reachable_w_running|].
  assert (Hin : pdRecord pd_up ∈ elems (components (d w_running))).
  { apply list_elem_of_further, list_elem_of_here. }
  split; [exact Hin|].
  exact (proj2 (visible_records_well_formed w_running _ _ reachable_w_running
                  (or_introl eq_refl) Hin) eq_refl).
Defined.

(** ** Lifecycle: start, close, return *)

Lemma act_closed a w w' :
  act a w = Some w' -> closed (d w) = true -> closed (d w') = true.
Proof.
  destruct a as [|ch| |reg|c reg]; cbn [act].
  - destruct (Subscribe w) as [[w1 ch]|] eqn:E; simpl; [|done]. intros [= <-].
    destruct (Subscribe_effect _ _ _ E) as (_ & _ & _ & _ & _ & -> & _). done.
  - intros H. by rewrite (receive_d _ _ _ H).
  - unfold Close. by destruct (closed (d w)).
  - destruct (loop w); try done. intros [= <-]. simpl.
    unfold loopPrologue, loadTopology. by destruct (getAllScrapeTargets reg).
  - destruct (loop w); try done. destruct c.
    + simpl. intros H Hc. rewrite Hc in H. by injection H as <-.
    + rewrite loopIteration_tick_unfold. intros [= <-].
      rewrite d_notifySubscriber. simpl.
      by destruct (loadTopology_components reg w) as [[_ ->]|(s & _ & ->)].
    + simpl. destruct (recv (notifyCh (d w))) as [[? c]|]; [|done].
      intros [= <-]. by rewrite d_notifySubscriber.
Qed.

Lemma run_closed acts w w' :
  run acts w = Some w' -> closed (d w) = true -> closed (d w') = true.
Proof.
  revert w. induction acts as [|a acts IH]; intros w; simpl; [by intros [= <-]|].
  destruct (act a w) as [w1|] eqn:E; simpl; [|done].
  intros H Hc. eapply IH; [exact H|]. by eapply act_closed.
Qed.

Lemma loop_loopIteration_tick reg w w' :
  loopIteration CaseTick reg w = Some w' -> loop w' = loop w.
Proof.
  rewrite loopIteration_tick_unfold. intros [= <-]. unfold notifySubscriber.
  rewrite loop_rangeSubscriber. simpl.
  by destruct (loadTopology_components reg w) as [[_ ->]|(s & _ & ->)].
Qed.

Lemma loop_loopIteration_notify reg w w' :
  loopIteration CaseNotify reg w = Some w' -> loop w' = loop w.
Proof.
  simpl. destruct (recv (notifyCh (d w))) as [[? c]|]; [|done]. intros [= <-].
  unfold notifySubscriber. by rewrite loop_rangeSubscriber.
Qed.

Lemma act_loop_returned a w w' :
  act a w = Some w' -> loop w' = Returned -> loop w = Returned \/ closed (d w) = true.
Proof.
  destruct a as [|ch| |reg|c reg]; cbn [act].
  - destruct (Subscribe w) as [[w1 ch]|] eqn:E; simpl; [|done]. intros [= <-].
    destruct (Subscribe_effect _ _ _ E) as (_ & _ & _ & _ & _ & _ & _ & ->). by left.
  - unfold receive. destruct (mailboxes w !! ch); simpl; [|done].
    destruct (recv c); simpl; [|done]. intros [= <-]. by left.
  - unfold Close. destruct (closed (d w)); [done|]. intros [= <-]. by left.
  - destruct (loop w); try done. by intros [= <-].
  - destruct (loop w) eqn:El; try done. destruct c.
    + simpl. destruct (closed (d w)); [|done]. by right.
    + intros H. rewrite (loop_loopIteration_tick _ _ _ H), El. done.
    + intros H. rewrite (loop_loopIteration_notify _ _ _ H), El. done.
Qed.

(** X7. The loop goroutine returns only after [Close]: in every reachable
    world in which it has returned the closing channel is closed. No
    aggregation, failed or not, ends the loop, and while [d.closed] is open
    the closed case of the [select] is not ready. *)
Theorem loop_returns_only_after_Close (w : World) :
  reachable w ->
  (loop w = Returned -> closed (d w) = true) /\
  (forall reg w', loopIteration CaseTick reg w = Some w' -> loop w' = loop w) /\
  (closed (d w) = false -> forall reg, loopIteration CaseClosed reg w = None).
Proof.
  intros Hw. split; [|split].
  - induction Hw as [| a w w' Hw IH Hact]; [done|]. intros Hl.
    destruct (act_loop_returned a w w' Hact Hl) as [H|H];
      eapply act_closed; eauto.
  - intros reg w'. apply loop_loopIteration_tick.
  - intros Hc reg. simpl. by rewrite Hc.
Qed.

Lemma loop_returns_only_after_Close_witness :
  reachable w_returned /\ loop w_returned = Returned /\ closed (d w_returned) = true.
Proof.
  assert (Hr : reachable w_returned).
  { apply reachable_world_after. vm_compute. eexists. reflexivity. }
  split; [exact Hr|]. split; [reflexivity|].
  exact (proj1 (loop_returns_only_after_Close w_returned Hr) eq_refl).
Defined.

(** X8. [Close] is not idempotent: once it has run, every later call panics
    on the closed channel, whatever happened in between. *)
Theorem Close_twice_panics (acts : list action) (w w' w'' : World) :
  Close w = Some w' -> run acts w' = Some w'' ->
  closed (d w'') = true /\ Close w'' = None.
Proof.
  intros Hc Hrun.
  assert (Hcl : closed (d w') = true).
  { unfold Close in Hc. destruct (closed (d w)); [done|]. by injection Hc as <-. }
  pose proof (run_closed acts w' w'' Hrun Hcl) as H.
  split; [exact H|]. unfold Close. by rewrite H.
Qed.

Lemma Close_twice_panics_witness :
  exists w' w'', Close w_running = Some w' /\
                 run [ActSelect CaseClosed reg_mixed; ActSubscribe] w' = Some w'' /\
                 Close w'' = None.
Proof.
  eexists _, _. split; [reflexivity|]. split; [reflexivity|].
  exact (proj2 (Close_twice_panics [ActSelect CaseClosed reg_mixed; ActSubscribe]
                  w_running _ _ eq_refl eq_refl)).
Defined.

Lemma act_after_return a w w' :
  loop w = Returned -> act a w = Some w' ->
  loop w' = Returned /\
  components (d w') = components (d w) /\
  logs w' = logs w /\
  forall ch c', mailboxes w' !! ch = Some c' ->
    (exists c, mailboxes w !! ch = Some c /\ buf c' `suffix_of` buf c) \/
    (length (mailboxes w) <= ch /\ buf c' = []).
Proof.
  intros Hl. destruct a as [|ch| |reg|c reg]; cbn [act].
  - destruct (Subscribe w) as [[w1 ch]|] eqn:E; simpl; [|done]. intros [= <-].
    destruct (Subscribe_effect _ _ _ E) as (_ & _ & Hm & _ & Hc & _ & Hlog & Hlo).
    rewrite Hlo, Hc, Hlog, Hm. repeat split; try done.
    intros ch' c'. intros [H|[Hge H]]%lookup_app_Some.
    + left. by exists c'.
    + right. split; [done|]. destruct (ch' - length (mailboxes w)); simpl in H; [|done].
      by injection H as <-.
  - unfold receive. destruct (mailboxes w !! ch) as [c|] eqn:E; simpl; [|done].
    unfold recv. destruct (buf c) as [|v rest] eqn:Eb; simpl; [done|].
    intros [= <-]. simpl. repeat split; try done.
    intros ch' c'. rewrite list_lookup_insert. case_decide as Hd.
    + destruct Hd as [-> _]. intros [= <-]. left. exists c. split; [done|].
      simpl. rewrite Eb. by apply suffix_cons_r.
    + intros H. left. by exists c'.
  - unfold Close. destruct (closed (d w)); [done|]. intros [= <-]. simpl.
    repeat split; try done. intros ch c' H. left. by exists c'.
  - by rewrite Hl.
  - by rewrite Hl.
Qed.

Lemma act_mailboxes_grow a w w' :
  act a w = Some w' -> length (mailboxes w) <= length (mailboxes w').
Proof.
  intros H. destruct (act_registry a w w' H) as [(_ & _ & Hm)|(_ & _ & Hm)]; lia.
Qed.

(** X9. Once the loop goroutine has returned nothing is refreshed or
    published any more: whatever happens afterwards, the stored snapshot
    and the log stay as they are, a mailbox can only lose pending
    snapshots to its consumer, and the mailbox of a subscriber who
    registers after the return stays empty. *)
Theorem nothing_published_after_return (acts : list action) (w w' : World) :
  loop w = Returned -> run acts w = Some w' ->
  loop w' = Returned /\
  components (d w') = components (d w) /\
  logs w' = logs w /\
  forall ch c', mailboxes w' !! ch = Some c' ->
    (exists c, mailboxes w !! ch = Some c /\ buf c' `suffix_of` buf c) \/
    (length (mailboxes w) <= ch /\ buf c' = []).
Proof.
  revert w. induction acts as [|a acts IH]; intros w Hl; simpl.
  - intros [= <-]. repeat split; try done. intros ch c' H. left. by exists c'.
  - destruct (act a w) as [w1|] eqn:E; simpl; [|done]. intros Hrun.
    destruct (act_after_return a w w1 Hl E) as (Hl1 & Hc1 & Hg1 & Hm1).
    destruct (IH w1 Hl1 Hrun) as (Hl' & Hc' & Hg' & Hm').
    split; [done|]. split; [congruence|]. split; [congruence|].
    intros ch c' Hch.
    assert (Hlen : length (mailboxes w) <= length (mailboxes w1)).
    { apply (act_mailboxes_grow a w w1 E). }
    destruct (Hm' ch c' Hch) as [(c1 & H1 & Hs1)|[Hge He]].
    + destruct (Hm1 ch c1 H1) as [(c & H0 & Hs0)|[Hge He]].
      * left. exists c. split; [done|]. by etrans.
      * right. split; [done|]. rewrite He in Hs1. by apply suffix_nil_inv in Hs1.
    + right. split; [lia | done].
Qed.

Lemma nothing_published_after_return_witness :
  loop w_returned = Returned /\
  exists w', run [ActSubscribe] w_returned = Some w' /\
             components (d w') = components (d w_returned).
Proof.
  split; [reflexivity|]. eexists. split; [reflexivity|].
  exact (proj1 (proj2 (nothing_published_after_return [ActSubscribe] w_returned _
                         eq_refl eq_refl))).
Defined.

(** ** Slow consumers and coalesced signals *)

Lemma notifySubscriber_keeps_full w ch v :
  single_slot w ->
  mailboxes w !! ch = Some (MkChan [v] 1) ->
  mailboxes (notifySubscriber w) !! ch = Some (MkChan [v] 1).
Proof.
  intros Hs Hc. unfold notifySubscriber. rewrite rangeSubscriber_lookup by done.
  rewrite Hc. by case_decide.
Qed.

Lemma act_keeps_unread a w w' ch v :
  consistent w -> not_receive_on ch a -> act a w = Some w' ->
  mailboxes w !! ch = Some (MkChan [v] 1) ->
  mailboxes w' !! ch = Some (MkChan [v] 1).
Proof.
  intros Hc Hnr Hact Hm. destruct a as [|ch'| |reg|c reg]; cbn [act] in Hact.
  - destruct (Subscribe w) as [[w1 ch1]|] eqn:E; simpl in Hact; [|done].
    injection Hact as <-. destruct (Subscribe_effect _ _ _ E) as (_ & _ & -> & _).
    by apply lookup_app_l_Some.
  - unfold receive in Hact. destruct (mailboxes w !! ch') as [c|]; simpl in Hact; [|done].
    destruct (recv c); simpl in Hact; [|done]. injection Hact as <-. simpl.
    simpl in Hnr. by rewrite list_lookup_insert_ne.
  - unfold Close in Hact. destruct (closed (d w)); [done|]. by injection Hact as <-.
  - destruct (loop w); try done. injection Hact as <-. simpl.
    destruct (mailboxes_loopPrologue reg w) as (-> & _). done.
  - destruct (loop w); try done. destruct c.
    + simpl in Hact. destruct (closed (d w)); [|done]. by injection Hact as <-.
    + rewrite loopIteration_tick_unfold in Hact. injection Hact as <-.
      rewrite notifySubscriber_log. simpl.
      pose proof (consistent_loadTopology reg w Hc) as (Hs & _).
      apply notifySubscriber_keeps_full; [done|].
      by destruct (loadTopology_components reg w) as [[_ ->]|(s & _ & ->)].
    + simpl in Hact. destruct (recv (notifyCh (d w))) as [[? c]|]; [|done].
      injection Hact as <-. rewrite notifySubscriber_set_notifyCh. simpl.
      destruct Hc as (Hs & _). by apply notifySubscriber_keeps_full.
Qed.

(** X10. An unread snapshot is never replaced: while its consumer does not
    read, a mailbox that holds a snapshot keeps exactly that snapshot
    through every later cycle, notification, subscription and close; the
    consumer will read the snapshot of the time the mailbox was filled, not
    the latest one. *)
Theorem unread_snapshot_is_kept (acts : list action) (w w' : World) (ch : ref)
    (v : slice Component) :
  reachable w ->
  mailboxes w !! ch = Some (MkChan [v] 1) ->
  Forall (not_receive_on ch) acts ->
  run acts w = Some w' ->
  mailboxes w' !! ch = Some (MkChan [v] 1).
Proof.
  revert w. induction acts as [|a acts IH]; intros w Hw Hm Hnr; simpl.
  - by intros [= <-].
  - destruct (act a w) as [w1|] eqn:E; simpl; [|done]. intros Hrun.
    apply Forall_cons in Hnr as [Ha Hnr].
    apply (IH w1); [by eapply reachable_act| |done|done].
    eapply act_keeps_unread; eauto using reachable_consistent.
Qed.

Lemma unread_snapshot_is_kept_witness :
  exists w' old,
    run [ActSelect CaseTick reg_all_down; ActSelect CaseTick reg_scenario] w_notified
      = Some w' /\
    mailboxes w_notified !! 0 = Some (MkChan [old] 1) /\
    mailboxes w' !! 0 = Some (MkChan [old] 1) /\
    len old = 4 /\ len (components (d w')) = 3.
Proof.
  assert (Hr : reachable w_notified).
  { apply reachable_world_after. vm_compute. eexists. reflexivity. }
  eexists _, _. split; [reflexivity|]. split; [reflexivity|]. split.
  - apply (unread_snapshot_is_kept
             [ActSelect CaseTick reg_all_down; ActSelect CaseTick reg_scenario]
             w_notified _ 0 _ Hr eq_refl).
    + repeat constructor.
    + reflexivity.
  - split; reflexivity.
Defined.

Lemma Subscribe_signal w w' ch :
  consistent w -> Subscribe w = Some (w', ch) -> buf (notifyCh (d w')) = [()].
Proof.
  intros (_ & _ & Hm & Hcap & Hlen). rewrite Subscribe_enabled by done.
  intros [= <- _]. simpl. unfold try_send.
  destruct (notifyCh (d w)) as [[|[] b] n]; simpl in *; subst n.
  - by rewrite decide_True by lia.
  - case_decide; simpl; [lia|]. destruct b; simpl in *; [done | lia].
Qed.

Lemma run_app acts1 acts2 w :
  run (acts1 ++ acts2) w = run acts1 w ≫= run acts2.
Proof.
  revert w. induction acts1 as [|a acts1 IH]; intros w; simpl; [done|].
  destruct (act a w); simpl; [apply IH | done].
Qed.

Lemma run_subscribes n w :
  reachable w ->
  exists w', run (replicate n ActSubscribe) w = Some w' /\ reachable w' /\
             length (elems (subscriber (d w'))) = length (elems (subscriber (d w))) + n.
Proof.
  revert w. induction n as [|n IH]; intros w Hw; simpl.
  - exists w. split; [done|]. split; [done | lia].
  - pose proof (reachable_consistent w Hw) as (_ & _ & Hm & _).
    rewrite (Subscribe_enabled w Hm). simpl.
    set (w1 := signal _).
    assert (Hact : act ActSubscribe w = Some w1).
    { simpl. by rewrite (Subscribe_enabled w Hm). }
    destruct (IH w1 (reachable_act _ _ _ Hw Hact)) as (w' & Hrun & Hr' & Hlen).
    exists w'. split; [done|]. split; [done|]. rewrite Hlen.
    subst w1. simpl. rewrite elems_append, length_app. simpl. lia.
Qed.

(** X11. Refresh signals coalesce: after any number of calls of [Subscribe]
    in a row exactly one signal is pending, and the one iteration of the
    loop that takes it publishes to every registered mailbox and leaves no
    signal behind, so the signal case is not ready again. *)
Theorem signals_coalesce (n : nat) (w : World) :
  reachable w ->
  exists w',
    run (replicate (S n) ActSubscribe) w = Some w' /\
    length (elems (subscriber (d w'))) = length (elems (subscriber (d w))) + S n /\
    buf (notifyCh (d w')) = [()] /\
    forall reg,
      exists w'', loopIteration CaseNotify reg w' = Some w'' /\
                  all_notified w'' /\
                  buf (notifyCh (d w'')) = [] /\
                  loopIteration CaseNotify reg w'' = None.
Proof.
  intros Hw. destruct (run_subscribes n w Hw) as (w1 & Hrun1 & Hr1 & Hlen1).
  pose proof (reachable_consistent w1 Hr1) as Hc1.
  destruct Hc1 as (H1 & H2 & Hm & H4 & H5).
  pose proof (Subscribe_enabled w1 Hm) as Hsub. set (w' := signal _) in Hsub.
  assert (Hact : act ActSubscribe w1 = Some w') by (simpl; by rewrite Hsub).
  pose proof (reachable_act _ _ _ Hr1 Hact) as Hr'.
  pose proof (reachable_consistent w' Hr') as Hc'.
  pose proof (Subscribe_signal w1 w' _ (reachable_consistent w1 Hr1) Hsub) as Hb.
  exists w'. split.
  { replace (S n) with (n + 1) by lia. rewrite replicate_add, run_app, Hrun1. simpl.
    by rewrite Hsub. }
  split.
  { destruct (Subscribe_effect _ _ _ Hsub) as (_ & _ & _ & Hs & _).
    rewrite Hs, length_app, Hlen1. simpl. lia. }
  split; [exact Hb|]. intros reg.
  cbn [loopIteration]. unfold recv at 1. rewrite Hb.
  eexists. split; [reflexivity|]. rewrite notifySubscriber_set_notifyCh.
  split; [|split].
  - intros ch Hch. exact (all_notified_notifySubscriber _ Hc' ch Hch).
  - reflexivity.
  - reflexivity.
Qed.

Lemma signals_coalesce_witness :
  reachable w_running /\
  exists w', run (replicate 3 ActSubscribe) w_running = Some w' /\
             buf (notifyCh (d w')) = [()].
Proof.
  split; [exact reachable_w_running|].
  destruct (signals_coalesce 2 w_running reachable_w_running) as (w' & Hrun & _ & Hb & _).
  exists w'. split; [exact Hrun | exact Hb].
Defined.

(** ** Concurrent calls of [Subscribe] *)

Module SubscribeCallers.
Import Interleaving.

Lemma critical_count_insert l i pc pc' :
  l !! i = Some pc ->
  critical_count (<[i := pc']> l) + (if in_critical pc then 1 else 0) =
    critical_count l + (if in_critical pc' then 1 else 0).
Proof.
  revert i. induction l as [|x l IH]; intros [|i]; simpl; try done.
  - intros [= ->]. lia.
  - intros H. specialize (IH i H). lia.
Qed.

Lemma critical_count_replicate n : critical_count (replicate n AtMake) = 0.
Proof. induction n as [|n IH]; simpl; [done | by rewrite IH]. Qed.

Lemma critical_count_unique l i j pci pcj :
  critical_count l <= 1 ->
  l !! i = Some pci -> l !! j = Some pcj ->
  in_critical pci = true -> in_critical pcj = true -> i = j.
Proof.
  revert i j. induction l as [|x l IH]; intros [|i] [|j]; simpl; try done.
  - intros Hc [= ->] Hj Hi Hcj. rewrite Hi in Hc.
    assert (critical_count l = 0) by lia. exfalso.
    clear -H Hj Hcj. revert j Hj. induction l as [|y l IH]; intros [|j]; simpl in *; try done.
    + intros [= ->]. rewrite Hcj in H. lia.
    + intros Hj. apply (IH ltac:(destruct (in_critical y); lia) j Hj).
  - intros Hc Hi [= ->] Hci Hcj. rewrite Hcj in Hc.
    assert (critical_count l = 0) by lia. exfalso.
    clear -H Hi Hci. revert i Hi. induction l as [|y l IH]; intros [|i]; simpl in *; try done.
    + intros [= ->]. rewrite Hci in H. lia.
    + intros Hi. apply (IH ltac:(destruct (in_critical y); lia) i Hi).
  - intros Hc Hi Hj Hci Hcj. f_equal. apply (IH i j); try done.
    destruct (in_critical x); lia.
Qed.

Lemma critical_count_holder l :
  1 <= critical_count l -> exists j pc, l !! j = Some pc /\ in_critical pc = true.
Proof.
  induction l as [|x l IH]; simpl; [lia|].
  destruct (in_critical x) eqn:E.
  - intros _. by exists 0, x.
  - intros H. destruct (IH ltac:(lia)) as (j & pc & Hj & Hpc). by exists (S j), pc.
Qed.

Lemma step_mutex_accounted g c c' :
  mutex_accounted c -> step g c = Some c' -> mutex_accounted c'.
Proof.
  unfold mutex_accounted. intros Hc. destruct g as [|i]; simpl.
  - destruct (notifier c) as [|[|ch chs]|]; simpl; try done; by intros [= <-].
  - destruct (callers c !! i) as [pc|] eqn:Ei; simpl; [|done].
    destruct pc as [|ch|ch|ch|ch|ch]; simpl.
    + intros [= <-]. simpl. pose proof (critical_count_insert _ i _ (AtLock (length (mailboxes (world c)))) Ei).
      simpl in *. lia.
    + unfold Lock. destruct (mutex (d (world c))) eqn:Em; simpl; [done|].
      intros [= <-]. simpl. pose proof (critical_count_insert _ i _ (AtAppend ch) Ei).
      simpl in *. lia.
    + intros [= <-]. simpl. pose proof (critical_count_insert _ i _ (AtUnlock ch) Ei).
      simpl in *. lia.
    + intros [= <-]. simpl. pose proof (critical_count_insert _ i _ (AtSignal ch) Ei).
      simpl in *. destruct (mutex (d (world c))); lia.
    + intros [= <-]. simpl. pose proof (critical_count_insert _ i _ (AtReturn ch) Ei).
      simpl in *. lia.
    + done.
Qed.

Lemma schedule_mutex_accounted gs c c' :
  mutex_accounted c -> schedule gs c = Some c' -> mutex_accounted c'.
Proof.
  revert c. induction gs as [|g gs IH]; intros c Hc; simpl; [by intros [= <-]|].
  destruct (step g c) as [c1|] eqn:E; simpl; [|done].
  apply IH. by eapply step_mutex_accounted.
Qed.

Lemma start_mutex_accounted n w : mutex (d w) = false -> mutex_accounted (start n w).
Proof. intros H. unfold mutex_accounted. simpl. by rewrite H, critical_count_replicate. Qed.

Lemma subscribe_step_blocked_at c i pc :
  callers c !! i = Some pc ->
  step (Caller i) c = None ->
  (exists ch, pc = AtReturn ch) \/
  (exists ch, pc = AtLock ch) /\ mutex (d (world c)) = true.
Proof.
  intros Hpc. unfold step. rewrite Hpc. simpl.
  destruct pc as [|ch|ch|ch|ch|ch]; simpl; try done.
  - unfold Lock. destruct (mutex (d (world c))); simpl; [|done]. intros _. right. eauto.
  - intros _. left. eauto.
Qed.

(** X12. The mutex serialises the callers of [Subscribe] among themselves:
    under every schedule of any number of concurrent calls and the loop
    goroutine, at most one caller stands between [d.Lock()] and
    [d.Unlock()], and the mutex is held exactly when one does. *)
Theorem Subscribe_mutual_exclusion (gs : list goroutine) (n : nat) (w : World) (c : Config) :
  mutex (d w) = false ->
  schedule gs (start n w) = Some c ->
  (forall i j pci pcj,
     callers c !! i = Some pci -> callers c !! j = Some pcj ->
     in_critical pci = true -> in_critical pcj = true -> i = j) /\
  (mutex (d (world c)) = true <->
   exists i pc, callers c !! i = Some pc /\ in_critical pc = true).
Proof.
  intros Hm Hs.
  pose proof (schedule_mutex_accounted _ _ _ (start_mutex_accounted n w Hm) Hs) as Hc.
  unfold mutex_accounted in Hc. split.
  - intros i j pci pcj. apply critical_count_unique.
    destruct (mutex (d (world c))); lia.
  - split.
    + intros Ht. rewrite Ht in Hc. apply critical_count_holder. lia.
    + intros (i & pc & Hi & Hpc). destruct (mutex (d (world c))); [done|].
      exfalso. pose proof (critical_count_insert _ i pc AtMake Hi) as H.
      rewrite Hpc in H. simpl in H. lia.
Qed.

Lemma Subscribe_mutual_exclusion_witness :
  mutex (d w_running) = false /\
  exists c, schedule [Caller 0; Caller 1; Caller 1; LoopGoroutine] (start 2 w_running)
              = Some c /\
            (mutex (d (world c)) = true <->
             exists i pc, callers c !! i = Some pc /\ in_critical pc = true).
Proof.
  split; [reflexivity|]. eexists. split; [reflexivity|].
  exact (proj2 (Subscribe_mutual_exclusion
                  [Caller 0; Caller 1; Caller 1; LoopGoroutine] 2 w_running _
                  eq_refl eq_refl)).
Defined.

(** X13. A call of [Subscribe] never waits for the loop goroutine and calls
    never deadlock: under every schedule, a caller that has not returned
    can take its next step, or it stands at [d.Lock()] while another
    caller holds the mutex, and that caller can take its next step. *)
Theorem Subscribe_waits_only_for_Subscribe (gs : list goroutine) (n : nat) (w : World)
    (c : Config) (i : nat) (pc : subscribe_pc) :
  mutex (d w) = false ->
  schedule gs (start n w) = Some c ->
  callers c !! i = Some pc ->
  returned pc = false ->
  is_Some (step (Caller i) c) \/
  (exists ch, pc = AtLock ch) /\
  exists j pcj, j <> i /\ callers c !! j = Some pcj /\ in_critical pcj = true /\
                is_Some (step (Caller j) c).
Proof.
  intros Hm Hs Hi Hret.
  pose proof (schedule_mutex_accounted _ _ _ (start_mutex_accounted n w Hm) Hs) as Hc.
  destruct (step (Caller i) c) as [c1|] eqn:E; [left; by eexists|]. right.
  destruct (subscribe_step_blocked_at c i pc Hi E) as [(ch & ->)|[(ch & ->) Hmt]];
    [done|].
  split; [by eexists|].
  unfold mutex_accounted in Hc. rewrite Hmt in Hc.
  destruct (critical_count_holder (callers c) ltac:(lia)) as (j & pcj & Hj & Hcj).
  exists j, pcj. split.
  - intros ->. rewrite Hi in Hj. injection Hj as <-. done.
  - split; [done|]. split; [done|]. unfold step. rewrite Hj. simpl.
    destruct pcj; simpl in *; try done; by eexists.
Qed.

Lemma Subscribe_waits_only_for_Subscribe_witness :
  exists c,
    schedule [Caller 0; Caller 0; Caller 1] (start 2 w_running) = Some c /\
    callers c !! 1 = Some (AtLock 2) /\
    step (Caller 1) c = None /\
    is_Some (step (Caller 0) c).
Proof.
  eexists. split; [reflexivity|]. split; [reflexivity|]. split; [reflexivity|].
  destruct (Subscribe_waits_only_for_Subscribe [Caller 0; Caller 0; Caller 1] 2 w_running
              _ 1 (AtLock 2) eq_refl eq_refl eq_refl eq_refl)
    as [[c1 H]|(_ & j & pcj & Hne & Hj & _ & Hstep)].
  - discriminate H.
  - destruct j as [|[|j]]; [exact Hstep | by destruct Hne | discriminate Hj].
Defined.

End SubscribeCallers.

(** * The document database *)

Module DocumentFacts.
Import document.

Lemma runValueLogGC_returns r : runValueLogGC r = Returns (gc_log r).
Proof. by destruct r as [p|[[|msg]|]]. Qed.

Lemma gcSelect_tick i g r s :
  gcLoops s !! i = Some g -> gc_at g = GcSelecting ->
  gcSelect i (TickCase r) s = Some (set_loop i g (gc_log r) s).
Proof.
  intros Hg Hpc. unfold gcSelect. rewrite Hg. simpl. by rewrite Hpc, runValueLogGC_returns.
Qed.

Lemma Init_returns newEngine newDB s s' :
  Init newEngine newDB s = Returns s' ->
  exists engine db,
    newEngine = Ok engine /\ newDB engine = Ok db /\
    s' = {| documentDB := Some db; closeCh := Some (length (channels s));
            channels := channels s ++ [false];
            gcLoops := gcLoops s ++ [ {| gc_db := engine; gc_closed := length (channels s);
                                         gc_at := GcSpawned |} ];
            dlogs := dlogs s |}.
Proof.
  unfold Init. destruct newEngine as [engine|]; [|done].
  destruct (newDB engine) as [db|] eqn:E; [|done]. intros [= <-]. by exists engine, db.
Qed.

Lemma Stop_returns closeErr s s' :
  Stop closeErr s = Returns s' ->
  exists ch, closeCh s = Some ch /\ channels s !! ch = Some false /\
             closeErr = None /\ is_Some (documentDB s) /\
             s' = {| documentDB := documentDB s; closeCh := closeCh s;
                     channels := <[ch := true]> (channels s);
                     gcLoops := gcLoops s; dlogs := dlogs s |}.
Proof.
  unfold Stop. destruct (closeCh s) as [ch|]; [|done].
  destruct (channels s !! ch) as [[|]|] eqn:E; try done.
  destruct (documentDB s) as [db|]; [|done]. destruct closeErr; [done|].
  intros [= <-]. exists ch. by repeat split.
Qed.

Lemma gc_step_frame i g l s :
  closeCh (set_loop i g l s) = closeCh s /\ channels (set_loop i g l s) = channels s /\
  documentDB (set_loop i g l s) = documentDB s.
Proof. done. Qed.

Lemma gcBegin_some i s s' :
  gcBegin i s = Some s' ->
  exists g, gcLoops s !! i = Some g /\ gc_at g = GcSpawned /\
            s' = set_loop i (at_pc GcSelecting g) [InfoStartGCLoop] s.
Proof.
  unfold gcBegin. destruct (gcLoops s !! i) as [g|]; simpl; [|done].
  destruct (gc_at g) eqn:E; try done. intros [= <-]. by exists g.
Qed.

Lemma gcSelect_some i c s s' :
  gcSelect i c s = Some s' ->
  exists g, gcLoops s !! i = Some g /\ gc_at g = GcSelecting /\
    ((exists r, c = TickCase r /\ s' = set_loop i g (gc_log r) s) \/
     (c = ClosedCase /\ channels s !! gc_closed g = Some true /\
      s' = set_loop i (at_pc GcReturned g) [InfoStopGCLoop] s)).
Proof.
  unfold gcSelect. destruct (gcLoops s !! i) as [g|] eqn:Eg; simpl; [|done].
  destruct (gc_at g) eqn:E; try done. destruct c as [r|].
  - rewrite runValueLogGC_returns. intros [= <-]. exists g. split; [done|]. split; [done|].
    left. by exists r.
  - destruct (channels s !! gc_closed g) as [[|]|] eqn:Ec; try done.
    intros [= <-]. exists g. split; [done|]. split; [done|]. by right.
Qed.

Lemma act_channel_stays_closed a s s' ch :
  act a s = Some s' -> channels s !! ch = Some true -> channels s' !! ch = Some true.
Proof.
  destruct a as [e n|e|i|i c]; simpl.
  - destruct (Init e n s) as [s1| |] eqn:E; try done. intros [= <-].
    destruct (Init_returns _ _ _ _ E) as (? & ? & _ & _ & ->). simpl.
    by apply lookup_app_l_Some.
  - destruct (Stop e s) as [s1| |] eqn:E; try done. intros [= <-].
    destruct (Stop_returns _ _ _ E) as (ch' & _ & Hch' & _ & _ & ->). simpl.
    intros H. rewrite list_lookup_insert. case_decide; [done | exact H].
  - intros (g & _ & _ & ->)%gcBegin_some. done.
  - intros (g & _ & _ & [(r & _ & ->)|(_ & _ & ->)])%gcSelect_some; done.
Qed.

Lemma act_returned_closed a s s' :
  act a s = Some s' ->
  (forall i g, gcLoops s !! i = Some g -> gc_at g = GcReturned ->
               channels s !! gc_closed g = Some true) ->
  forall i g, gcLoops s' !! i = Some g -> gc_at g = GcReturned ->
              channels s' !! gc_closed g = Some true.
Proof.
  intros Hact IH i g Hg Hpc.
  destruct a as [e n|e|j|j c]; simpl in Hact.
  - destruct (Init e n s) as [s1| |] eqn:E; try done. injection Hact as <-.
    destruct (Init_returns _ _ _ _ E) as (? & ? & _ & _ & ->). simpl in *.
    apply lookup_app_Some in Hg as [Hg|[_ Hg]].
    + apply lookup_app_l_Some. by eapply IH.
    + destruct (i - length (gcLoops s)); simpl in Hg; [|done].
      injection Hg as <-. done.
  - assert (Hact' : act (DoStop e) s = Some s') by exact Hact.
    destruct (Stop e s) as [s1| |] eqn:E; try done. injection Hact as <-.
    destruct (Stop_returns _ _ _ E) as (ch' & _ & _ & _ & _ & Hs1).
    eapply act_channel_stays_closed; [exact Hact'|].
    subst s1. simpl in *. by eapply IH.
  - apply gcBegin_some in Hact as (g0 & Hg0 & Hpc0 & ->). simpl in *.
    rewrite list_lookup_insert in Hg. case_decide as Hd.
    + injection Hg as <-. done.
    + by eapply IH.
  - apply gcSelect_some in Hact as (g0 & Hg0 & Hpc0 & [(r & _ & ->)|(_ & Hc & ->)]);
      simpl in *; rewrite list_lookup_insert in Hg; case_decide as Hd.
    + injection Hg as <-. congruence.
    + by eapply IH.
    + injection Hg as <-. done.
    + by eapply IH.
Qed.

Lemma document_reachable_run acts s s' :
  document.reachable s -> document.run acts s = Some s' -> document.reachable s'.
Proof.
  revert s. induction acts as [|a acts IH]; intros s Hs; simpl; [by intros [= <-]|].
  destruct (document.act a s) as [s1|] eqn:E; simpl; [|done].
  apply IH. by eapply document.reachable_act.
Qed.

(** X14. The GC loop is ended by [Stop] alone: in every reachable state a
    goroutine of [doGCLoop] that has returned watches a closed channel;
    whatever a GC run does (success, [ErrNoRewrite], another error, a
    panic) the goroutine stays in its loop and logs one line, none for
    [ErrNoRewrite]; and while its channel is open the closed case is not
    ready. *)
Theorem gc_loop_ends_only_by_close (s : Runtime) :
  reachable s ->
  (forall i g, gcLoops s !! i = Some g -> gc_at g = GcReturned ->
               channels s !! gc_closed g = Some true) /\
  (forall i g r, gcLoops s !! i = Some g -> gc_at g = GcSelecting ->
     exists s', gcSelect i (TickCase r) s = Some s' /\
                gcLoops s' !! i = Some g /\
                dlogs s' = dlogs s ++
                  match r with
                  | GCPanics p => [ErrorPanicInGC p]
                  | GCReturns None => [InfoGCSuccess]
                  | GCReturns (Some ErrNoRewrite) => []
                  | GCReturns (Some err) => [ErrorGCFailed err]
                  end) /\
  (forall i g, gcLoops s !! i = Some g -> channels s !! gc_closed g = Some false ->
               gcSelect i ClosedCase s = None).
Proof.
  intros Hs. split; [|split].
  - induction Hs as [| a s s' Hs IH Hact]; [done|]. by eapply act_returned_closed.
  - intros i g r Hg Hpc. eexists. split; [by apply gcSelect_tick|]. simpl. split; [|done].
    apply list_lookup_insert_eq. by eapply lookup_lt_Some.
  - intros i g Hg Hc. unfold gcSelect. rewrite Hg. simpl. rewrite Hc. by destruct (gc_at g).
Qed.

Lemma gc_loop_ends_only_by_close_witness :
  exists s s',
    reachable s /\
    gcSelect 0 (TickCase (GCPanics "value log corrupted")) s = Some s' /\
    gcLoops s' !! 0 = gcLoops s !! 0 /\
    gcSelect 0 ClosedCase s = None.
Proof.
  set (s := default boot (run [DoInit (engine_ok 0) db_ok; DoGcBegin 0] boot)).
  assert (Hr : reachable s).
  { apply (document_reachable_run [DoInit (engine_ok 0) db_ok; DoGcBegin 0] boot);
      [apply reachable_boot | reflexivity]. }
  destruct (gc_loop_ends_only_by_close s Hr) as (_ & Htick & Hclosed).
  destruct (Htick 0 _ (GCPanics "value log corrupted") eq_refl eq_refl) as (s' & Hs' & Hg & _).
  exists s, s'. split; [exact Hr|]. split; [exact Hs'|]. split; [exact Hg|].
  exact (Hclosed 0 _ eq_refl eq_refl).
Defined.

Lemma act_stopped a s s' :
  is_init a = false -> act a s = Some s' ->
  (exists ch, closeCh s = Some ch /\ channels s !! ch = Some true) ->
  exists ch, closeCh s' = Some ch /\ channels s' !! ch = Some true.
Proof.
  intros Hni Hact (ch & Hch & Hc). destruct a as [e n|e|i|i c]; simpl in *; [done|..].
  - unfold Stop in Hact. rewrite Hch, Hc in Hact. done.
  - apply gcBegin_some in Hact as (g & _ & _ & ->). by exists ch.
  - apply gcSelect_some in Hact as (g & _ & _ & [(r & _ & ->)|(_ & _ & ->)]); by exists ch.
Qed.

Lemma run_stopped acts s s' :
  Forall (fun a => is_init a = false) acts ->
  run acts s = Some s' ->
  (exists ch, closeCh s = Some ch /\ channels s !! ch = Some true) ->
  exists ch, closeCh s' = Some ch /\ channels s' !! ch = Some true.
Proof.
  revert s. induction acts as [|a acts IH]; intros s Hni; simpl.
  - by intros [= <-].
  - apply Forall_cons in Hni as [Ha Hni].
    destruct (act a s) as [s1|] eqn:E; simpl; [|done]. intros Hrun K.
    apply (IH s1 Hni Hrun). by eapply act_stopped.
Qed.

(** X15. [Stop] needs a preceding [Init]: before any [Init] it panics on the
    nil channel, and after a [Stop] that returned every further [Stop]
    panics on the closed channel until [Init] runs again, whatever the GC
    goroutines do in between. *)
Theorem Stop_panics_without_Init (acts : list action) (e e' : option error)
    (s s' s'' : Runtime) :
  (exists r, Stop e boot = Panics r) /\
  (Stop e s = Returns s' ->
   Forall (fun a => is_init a = false) acts ->
   run acts s' = Some s'' ->
   exists r, Stop e' s'' = Panics r).
Proof.
  split; [by eexists|]. intros Hstop Hni Hrun.
  destruct (Stop_returns _ _ _ Hstop) as (ch & Hch & Hc & _ & _ & ->).
  destruct (run_stopped acts _ s'' Hni Hrun) as (ch' & Hch' & Hc').
  - exists ch. split; [done|]. simpl. apply list_lookup_insert_eq.
    by eapply lookup_lt_Some.
  - unfold Stop. rewrite Hch', Hc'. by eexists.
Qed.

Lemma Stop_panics_without_Init_witness :
  exists s s' s'',
    Init (engine_ok 0) db_ok boot = Returns s /\
    Stop None s = Returns s' /\
    run [DoGcBegin 0; DoGcSelect 0 ClosedCase] s' = Some s'' /\
    exists r, Stop None s'' = Panics r.
Proof.
  destruct (Init (engine_ok 0) db_ok boot) as [s| |] eqn:Ei; try discriminate Ei.
  destruct (Stop None s) as [s'| |] eqn:Es;
    try (injection Ei as <-; discriminate Es).
  destruct (run [DoGcBegin 0; DoGcSelect 0 ClosedCase] s') as [s''|] eqn:Er;
    [|injection Ei as <-; injection Es as <-; discriminate Er].
  exists s, s', s''. split; [reflexivity|]. split; [exact Es|]. split; [exact Er|].
  apply (proj2 (Stop_panics_without_Init [DoGcBegin 0; DoGcSelect 0 ClosedCase] None None
                  s s' s'') Es).
  - repeat constructor.
  - exact Er.
Defined.





(** X17. [Init] followed by [Stop]: when both return, [Get] yields the opened
    database before and after [Stop], [Stop] is what makes the closed case
    of the GC loop started by this [Init] ready, and taking it ends the
    goroutine, which has logged its start line and then its stop line. *)
Theorem Init_then_Stop (e : result Engine) (n : Engine -> result DB) (s s1 : Runtime) :
  Init e n s = Returns s1 ->
  let i := length (gcLoops s) in
  is_Some (Get s1) /\
  (exists s1', gcBegin i s1 = Some s1' /\ gcSelect i ClosedCase s1' = None) /\
  exists s2 s3 s4,
    Stop None s1 = Returns s2 /\ Get s2 = Get s1 /\
    gcBegin i s2 = Some s3 /\
    gcSelect i ClosedCase s3 = Some s4 /\
    dlogs s4 = dlogs s ++ [InfoStartGCLoop; InfoStopGCLoop] /\
    exists g, gcLoops s4 !! i = Some g /\ gc_at g = GcReturned.
Proof.
  intros H i. destruct (Init_returns _ _ _ _ H) as (eng & db & -> & Hn & ->).
  assert (Hl : forall (l : list GCLoop) x, (l ++ [x]) !! length l = Some x).
  { intros l x. rewrite lookup_app_r by lia. by rewrite Nat.sub_diag. }
  assert (Hc : forall (l : list bool) x, (l ++ [x]) !! length l = Some x).
  { intros l x. rewrite lookup_app_r by lia. by rewrite Nat.sub_diag. }
  assert (Hi : forall (l : list GCLoop) x y, <[length l := y]> (l ++ [x]) = l ++ [y]).
  { intros l x y. rewrite insert_app_r_alt by lia. by rewrite Nat.sub_diag. }
  assert (Hci : forall (l : list bool) x y, <[length l := y]> (l ++ [x]) = l ++ [y]).
  { intros l x y. rewrite insert_app_r_alt by lia. by rewrite Nat.sub_diag. }
  split; [by eexists|]. split.
  - subst i. unfold gcBegin. simpl. rewrite Hl. simpl. eexists. split; [reflexivity|].
    unfold gcSelect. simpl. rewrite Hi, Hl. simpl. by rewrite Hc.
  - subst i. unfold Stop. simpl. rewrite Hc. eexists _, _, _. split; [reflexivity|].
    split; [reflexivity|]. unfold gcBegin. simpl. rewrite Hl. simpl.
    split; [reflexivity|]. unfold gcSelect. simpl. rewrite Hi, Hl. simpl.
    rewrite Hci, Hc. split; [reflexivity|]. simpl. rewrite !Hi, Hl.
    split; [by rewrite <- app_assoc|]. by eexists.
Qed.

Lemma Init_then_Stop_witness :
  exists s1 s2, Init (engine_ok 0) db_ok boot = Returns s1 /\
                Stop None s1 = Returns s2 /\ Get s2 = Get s1.
Proof.
  destruct (Init_then_Stop (engine_ok 0) db_ok boot _ eq_refl)
    as (_ & _ & s2 & _ & _ & Hstop & Hget & _).
  eexists _, s2. split; [reflexivity|]. split; [exact Hstop | exact Hget].
Defined.

End DocumentFacts.
